(** * export-cyberark-recordings: a model of the PVWA client and its driver

    The development embeds the Go sources [api.go] (package [pvwaAPI]),
    the record declarations of the package and the [main] driver, and
    states the properties of the specification over that embedding.

    Conventions.
    - A Go [int]/[int64] is a [Z]; where the program does arithmetic on it
      the two's-complement wrap-around is written out with [i64]/[u64].
    - A Go [map[string]string] is a reference: a location in a heap of
      [gmap string string] (see [Module Heap]).
    - Network, file system and clock are explicit: the server is a
      function from requests to replies, a response stream is the list of
      results of its successive [Read] calls, and everything observable is
      appended to an event trace.
    - An unbounded Go [for] loop is a [Fixpoint] on fuel; running out of
      fuel is the distinguished outcome [Diverged]. *)

From Stdlib Require Import ZArith String Ascii DecimalString.
From Stdlib Require Import Strings.Byte.
From stdpp Require Import gmap strings list fin_maps.

Open Scope Z_scope.

(** ** Machine integers *)

Module Int.

Definition two64 : Z := 2 ^ 64.
Definition two63 : Z := 2 ^ 63.
Definition MaxInt64 : Z := two63 - 1.
Definition MinInt64 : Z := - two63.

(** Conversion to [uint64]. *)
Definition u64 (x : Z) : Z := x mod two64.

(** Conversion to [int64] (and to [int] on the 64-bit targets). *)
Definition i64 (x : Z) : Z := (x + two63) mod two64 - two63.

Definition in_i64 (x : Z) : Prop := MinInt64 <= x <= MaxInt64.

End Int.

(** [fmt.Sprintf("%d", n)]: the decimal digits of [n], with a leading
    minus sign for a negative number. *)
Definition Sprintf_d (n : Z) : string := NilZero.string_of_int (Z.to_int n).

(** ** Package [time], restricted to the UTC location

    [time.Date], [Time.AddDate], [Time.Add] and [Time.Unix] as the Go
    standard library computes them: days are counted from an "absolute"
    epoch far in the past in [uint64], and converted to Unix seconds at
    the end.  A [Time] is observed through its Unix seconds and its
    nanoseconds. *)

Module time.

Import Int.

Record Time := mkTime { unixSec : Z; nsec : Z }.

Definition secondsPerMinute : Z := 60.
Definition secondsPerHour : Z := 60 * secondsPerMinute.
Definition secondsPerDay : Z := 24 * secondsPerHour.
Definition daysPer400Years : Z := 365 * 400 + 97.
Definition daysPer100Years : Z := 365 * 100 + 24.
Definition daysPer4Years : Z := 365 * 4 + 1.

Definition absoluteZeroYear : Z := -292277022399.
Definition internalYear : Z := 1.
(** [(absoluteZeroYear - internalYear) * 365.2425 * secondsPerDay] *)
Definition absoluteToInternal : Z := (absoluteZeroYear - internalYear) * 31556952.
Definition internalToAbsolute : Z := - absoluteToInternal.
Definition unixToInternal : Z :=
  (1969 * 365 + 1969 / 4 - 1969 / 100 + 1969 / 400) * secondsPerDay.
Definition internalToUnix : Z := - unixToInternal.

(** A [Duration] counts nanoseconds. *)
Definition Nanosecond : Z := 1.
Definition Second : Z := 1000000000 * Nanosecond.

Definition January : Z := 1.
Definition February : Z := 2.
Definition March : Z := 3.

(** [daysBefore[m]]: days in a non-leap year before month [m+1]. *)
Definition daysBefore_table : list Z :=
  [0; 31; 31 + 28; 31 + 28 + 31; 31 + 28 + 31 + 30; 31 + 28 + 31 + 30 + 31;
   31 + 28 + 31 + 30 + 31 + 30; 31 + 28 + 31 + 30 + 31 + 30 + 31;
   31 + 28 + 31 + 30 + 31 + 30 + 31 + 31;
   31 + 28 + 31 + 30 + 31 + 30 + 31 + 31 + 30;
   31 + 28 + 31 + 30 + 31 + 30 + 31 + 31 + 30 + 31;
   31 + 28 + 31 + 30 + 31 + 30 + 31 + 31 + 30 + 31 + 30;
   31 + 28 + 31 + 30 + 31 + 30 + 31 + 31 + 30 + 31 + 30 + 31].

Definition daysBefore (m : Z) : Z := nth (Z.to_nat m) daysBefore_table 0.

Definition isLeap (year : Z) : bool :=
  (Z.rem year 4 =? 0) && (negb (Z.rem year 100 =? 0) || (Z.rem year 400 =? 0)).

(** [norm(hi, lo, base)]: bring [lo] into [0, base), carrying into [hi]. *)
Definition norm (hi lo base : Z) : Z * Z :=
  let '(hi, lo) :=
    if lo <? 0 then
      let n := Z.quot (- lo - 1) base + 1 in (hi - n, lo + n * base)
    else (hi, lo) in
  if lo >=? base then
    let n := Z.quot lo base in (hi + n, lo - n * base)
  else (hi, lo).

(** Days from the absolute epoch to January 1 of [year]. *)
Definition daysSinceEpoch (year : Z) : Z :=
  let y := u64 (year - absoluteZeroYear) in
  let n := y / 400 in
  let y := y - 400 * n in
  let d := daysPer400Years * n in
  let n := y / 100 in
  let y := y - 100 * n in
  let d := d + daysPer100Years * n in
  let n := y / 4 in
  let y := y - 4 * n in
  let d := d + daysPer4Years * n in
  let n := y in
  u64 (d + 365 * n).

(** [time.Date(year, month, day, hour, min, sec, nsec, time.UTC)] *)
Definition Date (year month day hour min sec nsec : Z) : Time :=
  let m := month - 1 in
  let '(year, m) := norm year m 12 in
  let month := m + 1 in
  let '(sec, nsec) := norm sec nsec 1000000000 in
  let '(min, sec) := norm min sec 60 in
  let '(hour, min) := norm hour min 60 in
  let '(day, hour) := norm day hour 24 in
  let d := daysSinceEpoch year in
  let d := u64 (d + u64 (daysBefore (month - 1))) in
  let d := if isLeap year && (month >=? March) then u64 (d + 1) else d in
  let d := u64 (d + u64 (day - 1)) in
  let abs := u64 (d * secondsPerDay) in
  let abs := u64 (abs + u64 (hour * secondsPerHour + min * secondsPerMinute + sec)) in
  let unix := i64 (i64 abs + (absoluteToInternal + internalToUnix)) in
  mkTime unix nsec.

(** [t.abs()] for a time in UTC. *)
Definition abs (t : Time) : Z :=
  u64 (unixSec t + (unixToInternal + internalToAbsolute)).

(** [absDate(abs, true)]: year, month, day of the month. *)
Definition absDate (abs : Z) : Z * Z * Z :=
  let d := abs / secondsPerDay in
  let n := d / daysPer400Years in
  let y := 400 * n in
  let d := d - daysPer400Years * n in
  let n := d / daysPer100Years in
  let n := n - Z.shiftr n 2 in
  let y := y + 100 * n in
  let d := d - daysPer100Years * n in
  let n := d / daysPer4Years in
  let y := y + 4 * n in
  let d := d - daysPer4Years * n in
  let n := d / 365 in
  let n := n - Z.shiftr n 2 in
  let y := y + n in
  let d := d - 365 * n in
  let year := i64 (i64 y + absoluteZeroYear) in
  let yday := d in
  let day := yday in
  if isLeap year && (day =? 31 + 29 - 1) then (year, February, 29)
  else
    let day := if isLeap year && (day >? 31 + 29 - 1) then day - 1 else day in
    let month := Z.quot day 31 in
    let end_ := daysBefore (month + 1) in
    let '(month, begin) :=
      if day >=? end_ then (month + 1, end_) else (month, daysBefore month) in
    let month := month + 1 in
    (year, month, day - begin + 1).

(** [absClock(abs)]: hour, minute and second within the day. *)
Definition absClock (abs : Z) : Z * Z * Z :=
  let sec := abs mod secondsPerDay in
  let hour := sec / secondsPerHour in
  let sec := sec - hour * secondsPerHour in
  let min := sec / secondsPerMinute in
  let sec := sec - min * secondsPerMinute in
  (hour, min, sec).

Definition Time_Date (t : Time) : Z * Z * Z := absDate (abs t).
Definition Time_Clock (t : Time) : Z * Z * Z := absClock (abs t).

(** [t.AddDate(years, months, days)] *)
Definition AddDate (t : Time) (years months days : Z) : Time :=
  let '(year, month, day) := Time_Date t in
  let '(hour, min, sec) := Time_Clock t in
  Date (year + years) (month + months) (day + days) hour min sec (nsec t).

(** [t.Add(d)] *)
Definition Add (t : Time) (d : Z) : Time :=
  let dsec := Z.quot d 1000000000 in
  let ns := nsec t + Z.rem d 1000000000 in
  let '(dsec, ns) :=
    if ns >=? 1000000000 then (dsec + 1, ns - 1000000000)
    else if ns <? 0 then (dsec - 1, ns + 1000000000)
    else (dsec, ns) in
  mkTime (i64 (unixSec t + dsec)) ns.

(** [t.Unix()] *)
Definition Unix (t : Time) : Z := unixSec t.

End time.

(** ** Results, errors and runs *)

(** A Go [error] is carried by its message; [fmt.Errorf] with [%w] or
    [%v] builds the message of the wrapping error. *)
Definition error : Type := string.

Definition Errorf (context : string) (err : error) : error :=
  (context +:+ ": " +:+ err)%string.

(** The pair [(value, error)] a Go function returns. *)
Inductive Result (A : Type) : Type :=
| Ok (a : A)
| Err (e : error).
Arguments Ok {A} a.
Arguments Err {A} e.

(** What a computation with an unbounded loop does on a given fuel. *)
Inductive Run (A : Type) : Type :=
| Returned (a : A)
| Diverged.
Arguments Returned {A} a.
Arguments Diverged {A}.

Definition len {A} (l : list A) : Z := Z.of_nat (length l).

(** ** The data model (package [pvwaAPI], record declarations) *)

Record RecordingFile := {
  rf_FileName : string;
  RecordingType : Z;
  LastReviewBy : string;
  LastReviewDate : Z;
  FileSize : Z;
  CompressedFileSize : Z;
  Format : string
}.

(** [RecordedActivities] holds arbitrary JSON values, kept as their text;
    [RiskScore] is a [float64], kept as its 64-bit pattern. *)
Record Recording := {
  SessionID : string;
  SessionGuid : string;
  SafeName : string;
  FileName : string;
  Start : Z;
  End_ : Z;
  Duration : Z;
  User : string;
  RemoteMachine : string;
  AccountUsername : string;
  AccountPlatformID : string;
  AccountAddress : string;
  RecordedActivities : list string;
  ConnectionComponentID : string;
  FromIP : string;
  Client : string;
  RiskScore : Z;
  Severity : string;
  RecordingFiles : list RecordingFile;
  VideoSize : Z;
  TextSize : Z;
  DetailsUrl : string
}.

Record SessionRecordings := {
  Recordings : list Recording;
  Total : Z
}.

(** The zero value of [SessionRecordings] ([var pageRecordings SessionRecordings]). *)
Definition SessionRecordings_zero : SessionRecordings :=
  {| Recordings := []; Total := 0 |}.

(** [pvwaClient]; the [resty] client it holds is the server the
    operations below are run against. *)
Record pvwaClient := {
  BaseURL : string;
  Username : string;
  AuthToken : string
}.

(** ** Go maps as references into a heap *)

Module Heap.

Definition loc : Type := nat.

(** A [map[string]string] value: [nil] or a reference. *)
Inductive mapref : Type :=
| nilmap
| ref (l : loc).

(** A map value of a running program refers to a map of the heap. *)
Definition valid (h : gmap loc (gmap string string)) (r : mapref) : Prop :=
  match r with
  | nilmap => True
  | ref l => l ∈ dom h
  end.

(** The key-value pairs a map value holds; reading a [nil] map gives none. *)
Definition contents (h : gmap loc (gmap string string)) (r : mapref)
  : gmap string string :=
  match r with
  | nilmap => ∅
  | ref l => default ∅ (h !! l)
  end.

(** [make(map[string]string)] *)
Definition make (h : gmap loc (gmap string string))
  : loc * gmap loc (gmap string string) :=
  let l := fresh (dom h) in (l, <[l := ∅]> h).

(** [m[k] = v] on the map at [l]. *)
Definition store (h : gmap loc (gmap string string)) (l : loc) (k v : string)
  : gmap loc (gmap string string) :=
  alter (λ m, <[k := v]> m) l h.

(** [for k, v := range src { dst[k] = v }] *)
Definition copy_into (h : gmap loc (gmap string string)) (src : mapref) (dst : loc)
  : gmap loc (gmap string string) :=
  foldl (λ h kv, store h dst kv.1 kv.2) h (map_to_list (contents h src)).

End Heap.

(** ** The HTTP boundary *)

Record Request := {
  rq_method : string;
  rq_url : string;
  rq_query : gmap string string;
  rq_headers : list (string * string);
  rq_body : string
}.

(** [Response.IsSuccess]: a status code in 200..299. *)
Definition IsSuccess (status : Z) : bool := (199 <? status) && (status <? 300).

(** What [Get] on the listing endpoint gives back with
    [SetResult(&pageRecordings)]: an error (transport failure, or a body
    that does not decode), or a response with its status code and the
    decoding of its body.  The client fills the result only for a
    response with a success status. *)
Inductive ListReply : Type :=
| ListError (e : error)
| ListResponse (status : Z) (decoded : SessionRecordings).

(** A listing server answers the [n]-th request it receives. *)
Definition ListServer : Type := nat → Request → ListReply.

Record World := {
  heap : gmap Heap.loc (gmap string string);
  requests : list Request
}.

(** ** [GetRecordings] *)

Definition maxResultsPerPage : Z := 1000.

(** Which of the two [break]s left the pagination loop. *)
Inductive LoopExit : Type :=
| LastPage
| SafetyCheck.

Section Listing.

Variable srv : ListServer.
Variable p : pvwaClient.

Definition listing_request (currentParams : gmap string string) : Request :=
  {| rq_method := "GET";
     rq_url := (BaseURL p +:+ "/recordings")%string;
     rq_query := currentParams;
     rq_headers := [("authorization"%string, AuthToken p)];
     rq_body := EmptyString |}.

Fixpoint GetRecordings_loop (fuel : nat) (queryParams : Heap.mapref)
    (offset : Z) (allRecordings : SessionRecordings) (w : World)
  : Run (Result (SessionRecordings * LoopExit)) * World :=
  match fuel with
  | O => (Diverged, w)
  | S fuel =>
    let '(currentParams, h) := Heap.make (heap w) in
    let h := Heap.copy_into h queryParams currentParams in
    let h := Heap.store h currentParams "offset" (Sprintf_d offset) in
    let rq := listing_request (Heap.contents h (Heap.ref currentParams)) in
    let reply := srv (length (requests w)) rq in
    let w := {| heap := h; requests := requests w ++ [rq] |} in
    match reply with
    | ListError err =>
      (Returned (Err (Errorf
         ("could not retrieve recordings at offset " +:+ Sprintf_d offset) err)), w)
    | ListResponse status decoded =>
      let pageRecordings :=
        if IsSuccess status then decoded else SessionRecordings_zero in
      let allRecordings :=
        {| Recordings := Recordings allRecordings ++ Recordings pageRecordings;
           Total := Total pageRecordings |} in
      if len (Recordings pageRecordings) <? maxResultsPerPage then
        (Returned (Ok (allRecordings, LastPage)), w)
      else
        let offset := Int.i64 (offset + maxResultsPerPage) in
        if offset >=? Total pageRecordings then
          (Returned (Ok (allRecordings, SafetyCheck)), w)
        else GetRecordings_loop fuel queryParams offset allRecordings w
    end
  end.

Definition forget_exit (r : Run (Result (SessionRecordings * LoopExit)))
  : Run (Result SessionRecordings) :=
  match r with
  | Returned (Ok (s, _)) => Returned (Ok s)
  | Returned (Err e) => Returned (Err e)
  | Diverged => Diverged
  end.

Definition GetRecordings (fuel : nat) (queryParams : Heap.mapref) (w : World)
  : Run (Result SessionRecordings) * World :=
  let '(r, w) :=
    GetRecordings_loop fuel queryParams 0
      {| Recordings := []; Total := 0 |} w in
  (forget_exit r, w).

(** A map literal: a fresh map, then one store per entry. *)
Definition map_literal (entries : list (string * string)) (w : World)
  : Heap.loc * World :=
  let '(l, h) := Heap.make (heap w) in
  (l, {| heap := foldl (λ h kv, Heap.store h l kv.1 kv.2) h entries;
         requests := requests w |}).

Definition GetAllRecordings (fuel : nat) (w : World)
  : Run (Result SessionRecordings) * World :=
  let '(queryParams, w) :=
    map_literal [("offset", "0"); ("sort", "name"); ("order", "asc")]%string w in
  match GetRecordings fuel (Heap.ref queryParams) w with
  | (Returned (Err err), w) =>
    (Returned (Err (Errorf "Could not get all recordings" err)), w)
  | rw => rw
  end.

(** The two time bounds of [GetRecordingsByMonth]. *)
Definition month_from (month : Z) : time.Time :=
  time.Date 2024 month 0 0 0 0 0.

Definition month_to (month : Z) : time.Time :=
  time.Add (time.AddDate (month_from month) 0 1 0) (- time.Second).

Definition month_params (month : Z) : list (string * string) :=
  [("offset", "0"); ("sort", "name"); ("order", "asc");
   ("fromtime", Sprintf_d (time.Unix (month_from month)));
   ("totime", Sprintf_d (time.Unix (month_to month)))]%string.

Definition GetRecordingsByMonth (fuel : nat) (month : Z) (w : World)
  : Run (Result SessionRecordings) * World :=
  let '(queryParams, w) := map_literal (month_params month) w in
  GetRecordings fuel (Heap.ref queryParams) w.

End Listing.

(** ** [GetAuthToken] *)

Definition quote : ascii := "034"%char.
Definition dq : string := String quote EmptyString.
Definition newline : string := String "010"%char EmptyString.

Fixpoint in_cutset (c : ascii) (cutset : string) : bool :=
  match cutset with
  | EmptyString => false
  | String d cutset => Ascii.eqb c d || in_cutset c cutset
  end.

Fixpoint TrimLeft (s cutset : string) : string :=
  match s with
  | EmptyString => EmptyString
  | String c s' => if in_cutset c cutset then TrimLeft s' cutset else s
  end.

Fixpoint TrimRight (s cutset : string) : string :=
  match s with
  | EmptyString => EmptyString
  | String c s' =>
    match TrimRight s' cutset with
    | EmptyString => if in_cutset c cutset then EmptyString else String c EmptyString
    | t => String c t
    end
  end.

(** [strings.Trim(s, cutset)]: all leading and trailing characters of
    [cutset] removed. *)
Definition Trim (s cutset : string) : string := TrimRight (TrimLeft s cutset) cutset.

(** What [Post] on the logon endpoint gives back: an error (transport
    failure), or a response with its status code and body. *)
Inductive LogonReply : Type :=
| LogonError (e : error)
| LogonResponse (status : Z) (body : string).

Definition logon_request (p : pvwaClient) (password : string) : Request :=
  {| rq_method := "POST";
     rq_url := (BaseURL p +:+ "/auth/CyberArk/Logon")%string;
     rq_query := ∅;
     rq_headers := [("Content-Type", "application/json")]%string;
     rq_body := ("{" +:+ dq +:+ "username" +:+ dq +:+ ":" +:+ dq +:+ Username p
                 +:+ dq +:+ ", " +:+ dq +:+ "password" +:+ dq +:+ ":" +:+ dq
                 +:+ password +:+ dq +:+ "}")%string |}.

(** The method has a pointer receiver: it returns its error and the
    client as it leaves it. *)
Definition GetAuthToken (logon : Request → LogonReply) (p : pvwaClient)
    (password : string) : option error * pvwaClient :=
  match logon (logon_request p password) with
  | LogonError err =>
    (Some (Errorf "error obtaining authorization token" err), p)
  | LogonResponse _ body =>
    let authTokenTrimmed := Trim body dq in
    (None, {| BaseURL := BaseURL p; Username := Username p;
              AuthToken := authTokenTrimmed |})
  end.

(** ** [DownloadRecordings] *)

(** The error of one [Read]: [nil], [io.EOF], or another error. *)
Inductive ReadErr : Type :=
| rNil
| rEOF
| rFail (e : error).

(** A response stream is given by the results of its successive [Read]
    calls: the bytes put into the buffer and the error returned with
    them.  Once they are used up, [Read] returns [0, io.EOF]. *)
Definition Stream : Type := list (list byte * ReadErr).

(** [n, err := rawBody.Read(buffer)]: the buffer after the call, [n],
    [err] and the rest of the stream.  A reader cannot put more than
    [len(buffer)] bytes into the buffer. *)
Definition Body_Read (s : Stream) (buffer : list byte)
  : list byte * Z * ReadErr * Stream :=
  match s with
  | [] => (buffer, 0, rEOF, [])
  | (data, err) :: s =>
    let data := take (length buffer) data in
    (data ++ drop (length data) buffer, len data, err, s)
  end.

(** What [Post] on the play endpoint gives back with
    [SetDoNotParseResponse(true)]: an error, or a response with its
    status code and its unread body ([None]: [RawBody()] is [nil]). *)
Inductive PlayReply : Type :=
| PlayError (e : error)
| PlayResponse (status : Z) (rawBody : option Stream).

(** The local file system, as far as it can fail. *)
Record Disk := {
  mkdir_err : string → option error;
  create_err : string → option error;
  (** a [Write] to the file at this path, at this offset, of this many bytes *)
  write_err : string → Z → Z → option error
}.

Inductive Event : Type :=
| EvMkdirAll (path : string)
| EvOpenFile (path : string)
| EvOpenBody (sessionID : string)
| EvWrite (path : string) (n : Z)
| EvWriteFailed (path : string)
| EvProgress (sessionID : string) (totalBytes : Z)
| EvCloseFile (path : string)
| EvCloseBody (sessionID : string).

(** A call registered with [defer]. *)
Inductive Deferred : Type :=
| DeferCloseFile (path : string)
| DeferCloseBody (sessionID : string).

Record DlState := {
  files : gmap string (list byte);
  events : list Event;
  deferred : list Deferred
}.

Definition emit (e : Event) (st : DlState) : DlState :=
  {| files := files st; events := events st ++ [e]; deferred := deferred st |}.

(** [defer f()]: the call is pushed; the last one pushed runs first. *)
Definition defer (d : Deferred) (st : DlState) : DlState :=
  {| files := files st; events := events st; deferred := d :: deferred st |}.

Definition run_deferred (d : Deferred) : Event :=
  match d with
  | DeferCloseFile path => EvCloseFile path
  | DeferCloseBody sid => EvCloseBody sid
  end.

(** The function returns: its deferred calls run, last registered first. *)
Definition return_ (st : DlState) : DlState :=
  {| files := files st;
     events := events st ++ map run_deferred (deferred st);
     deferred := [] |}.

Section Download.

Variable disk : Disk.
Variable play : Request → PlayReply.
(** [filepath.Join] *)
Variable Join : list string → string.
Variable p : pvwaClient.

Definition play_request (sessionID : string) : Request :=
  {| rq_method := "POST";
     rq_url := (BaseURL p +:+ "/recordings/" +:+ sessionID +:+ "/Play/")%string;
     rq_query := ∅;
     rq_headers := [("Accept", "*/*"); ("authorization", AuthToken p)]%string;
     rq_body := EmptyString |}.

(** [os.Create(filePath)]: the file exists and is empty afterwards. *)
Definition os_Create (filePath : string) (st : DlState) : option error * DlState :=
  match create_err disk filePath with
  | Some err => (Some err, st)
  | None =>
    (None, emit (EvOpenFile filePath)
             {| files := <[filePath := []]> (files st);
                events := events st; deferred := deferred st |})
  end.

(** [out.Write(chunk)] *)
Definition File_Write (filePath : string) (chunk : list byte) (st : DlState)
  : option error * DlState :=
  let content := default [] (files st !! filePath) in
  match write_err disk filePath (len content) (len chunk) with
  | Some err => (Some err, emit (EvWriteFailed filePath) st)
  | None =>
    (None, emit (EvWrite filePath (len chunk))
             {| files := <[filePath := content ++ chunk]> (files st);
                events := events st; deferred := deferred st |})
  end.

(** The [for] loop that reads and writes in chunks; it gives the
    error it returns with, or the byte count it breaks with. *)
Fixpoint copy_loop (fuel : nat) (sessionID filePath : string)
    (rawBody : Stream) (buffer : list byte) (totalBytes : Z) (st : DlState)
  : Run (Result Z) * DlState :=
  match fuel with
  | O => (Diverged, st)
  | S fuel =>
    let '(buffer, n, err, rawBody) := Body_Read rawBody buffer in
    let step :=
      if n >? 0 then
        match File_Write filePath (take (Z.to_nat n) buffer) st with
        | (Some writeErr, st) =>
          (Some (Errorf "error writing to file" writeErr), totalBytes, st)
        | (None, st) =>
          let totalBytes := Int.i64 (totalBytes + n) in
          (None, totalBytes, emit (EvProgress sessionID totalBytes) st)
        end
      else (None, totalBytes, st) in
    match step with
    | (Some e, _, st) => (Returned (Err e), st)
    | (None, totalBytes, st) =>
      match err with
      | rEOF => (Returned (Ok totalBytes), st)
      | rFail e => (Returned (Err (Errorf "error reading response" e)), st)
      | rNil => copy_loop fuel sessionID filePath rawBody buffer totalBytes st
      end
    end
  end.

(** [make([]byte, 32*1024)] *)
Definition new_buffer : list byte := replicate (Z.to_nat (32 * 1024)) x00.

(** The body of the loop over the recordings.  [Some err]: the function
    returns [err]; [None]: the loop is over. *)
Fixpoint download_each (fuel : nat) (outputPath : string)
    (recordings : list Recording) (st : DlState)
  : Run (option error) * DlState :=
  match recordings with
  | [] => (Returned None, st)
  | recording :: recordings =>
    let filePath := Join [outputPath; (SessionID recording +:+ ".avi")%string] in
    match os_Create filePath st with
    | (Some err, st) => (Returned (Some (Errorf "error creating output file" err)), st)
    | (None, st) =>
      let st := defer (DeferCloseFile filePath) st in
      match play (play_request (SessionID recording)) with
      | PlayError err => (Returned (Some (Errorf "error making request" err)), st)
      | PlayResponse status rawBody =>
        let st := match rawBody with
                  | Some _ => emit (EvOpenBody (SessionID recording)) st
                  | None => st
                  end in
        if negb (status =? 200) then
          (Returned (Some ("unexpected status code: " +:+ Sprintf_d status)%string), st)
        else
          match rawBody with
          | None => (Returned (Some "no response body received"%string), st)
          | Some rawBody =>
            let st := defer (DeferCloseBody (SessionID recording)) st in
            match copy_loop fuel (SessionID recording) filePath rawBody
                    new_buffer 0 st with
            | (Diverged, st) => (Diverged, st)
            | (Returned (Err e), st) => (Returned (Some e), st)
            | (Returned (Ok _), st) => download_each fuel outputPath recordings st
            end
          end
      end
    end
  end.

Definition DownloadRecordings (fuel : nat) (outputPath : string)
    (sessions : SessionRecordings) (st : DlState) : Run (option error) * DlState :=
  match mkdir_err disk outputPath with
  | Some err => (Returned (Some (Errorf "error creating output directory" err)), st)
  | None =>
    let st := emit (EvMkdirAll outputPath) st in
    match download_each fuel outputPath (Recordings sessions) st with
    | (Returned r, st) => (Returned r, return_ st)
    | (Diverged, st) => (Diverged, st)
    end
  end.

End Download.

(** ** The driver ([main])

    The driver after flag parsing: [months] is what [parseMonths]
    returned and [newClient] what [NewPVWAConfig] returned.  The three
    operations of the client are taken as they answer, over any state of
    the world; [log.Fatal] ends the process with status 1, and [main]
    returning ends it with status 0. *)

Inductive DriverEvent : Type :=
| CallGetRecordingsByMonth (month : Z)
| CallSaveToJSON (outputPath : string)
| CallDownloadRecordings (outputPath : string)
| Fatal (message : string).

Section Driver.

Context {S : Type}.
Variable client_GetRecordingsByMonth : Z → S → Result SessionRecordings * S.
Variable client_SaveToJSON : string → SessionRecordings → S → option error * S.
Variable client_DownloadRecordings : string → SessionRecordings → S → option error * S.
(** [filepath.Join] *)
Variable Join : list string → string.

(** The loop over the months: exit status, calls made, final state. *)
Fixpoint main_months (months : list Z) (st : S) (log : list DriverEvent)
  : Z * list DriverEvent * S :=
  match months with
  | [] => (0, log, st)
  | m :: months =>
    let log := log ++ [CallGetRecordingsByMonth m] in
    match client_GetRecordingsByMonth m st with
    | (Err err, st) =>
      (1, log ++ [Fatal ("error getting recordings for month: " +:+ Sprintf_d m
                         +:+ newline +:+ err)%string], st)
    | (Ok sessions, st) =>
      let outputPath :=
        Join ["."; "downloaded_recordings/"; Sprintf_d m +:+ "/"]%string in
      let '(_, st) := client_SaveToJSON outputPath sessions st in
      let log := log ++ [CallSaveToJSON outputPath] in
      let '(_, st) := client_DownloadRecordings outputPath sessions st in
      let log := log ++ [CallDownloadRecordings outputPath] in
      main_months months st log
    end
  end.

Definition main (months : list Z) (newClient : option error) (st : S)
  : Z * list DriverEvent * S :=
  match newClient with
  | Some err => (1, [Fatal ("error at pvwaClient: " +:+ newline +:+ err)%string], st)
  | None => main_months months st []
  end.

End Driver.

(** ** Vocabulary of the properties *)

Section ListingSteps.

Variable srv : ListServer.
Variable p : pvwaClient.

(** The request of one iteration: the caller's pairs, with [offset]
    overwritten. *)
Definition page_request (h : gmap Heap.loc (gmap string string))
    (queryParams : Heap.mapref) (offset : Z) : Request :=
  listing_request p
    (<["offset"%string := Sprintf_d offset]> (Heap.contents h queryParams)).

(** The world once that request is sent: one more map, one more request. *)
Definition after_request (w : World) (queryParams : Heap.mapref) (offset : Z)
  : World :=
  {| heap := <[fresh (dom (heap w)) :=
                 <["offset"%string := Sprintf_d offset]>
                   (Heap.contents (heap w) queryParams)]> (heap w);
     requests := requests w ++ [page_request (heap w) queryParams offset] |}.

(** The rest of the iteration, from the reply on. *)
Definition after_reply (fuel : nat) (queryParams : Heap.mapref) (offset : Z)
    (allRecordings : SessionRecordings) (w : World) (reply : ListReply)
  : Run (Result (SessionRecordings * LoopExit)) * World :=
  match reply with
  | ListError err =>
    (Returned (Err (Errorf
       ("could not retrieve recordings at offset " +:+ Sprintf_d offset) err)), w)
  | ListResponse status decoded =>
    let pageRecordings :=
      if IsSuccess status then decoded else SessionRecordings_zero in
    let allRecordings :=
      {| Recordings := Recordings allRecordings ++ Recordings pageRecordings;
         Total := Total pageRecordings |} in
    if len (Recordings pageRecordings) <? maxResultsPerPage then
      (Returned (Ok (allRecordings, LastPage)), w)
    else
      let offset := Int.i64 (offset + maxResultsPerPage) in
      if offset >=? Total pageRecordings then
        (Returned (Ok (allRecordings, SafetyCheck)), w)
      else GetRecordings_loop srv p fuel queryParams offset allRecordings w
  end.

End ListingSteps.

(** Every [Total] the server reports with a success status is at most [B]. *)
Definition totals_bounded (srv : ListServer) (B : Z) : Prop :=
  ∀ n rq status decoded,
    srv n rq = ListResponse status decoded →
    IsSuccess status = true → Total decoded <= B.

(** The number of requests after which the offset has reached [B]: one,
    or [B / 1000] rounded up. *)
Definition max_requests (B : Z) : nat :=
  Z.to_nat (Z.max 1 ((B + maxResultsPerPage - 1) / maxResultsPerPage)).

(** Every reply is a page of 1000 records or more, with a success
    status, that reports the same [Total]. *)
Definition full_pages (srv : ListServer) (T : Z) : Prop :=
  ∀ n rq, ∃ status pg,
    srv n rq = ListResponse status {| Recordings := pg; Total := T |}
    ∧ IsSuccess status = true ∧ maxResultsPerPage <= len pg.

(** From its [n0]-th request on, the server answers with a success
    status and at most 1000 records a page, and a page with fewer than
    1000 records reports as [Total] the number of records delivered up to
    and including it. *)
Definition pages_consistent (srv : ListServer) (n0 : nat) : Prop :=
  ∀ (k : nat) rq status decoded,
    srv (n0 + k)%nat rq = ListResponse status decoded →
    IsSuccess status = true
    ∧ len (Recordings decoded) <= maxResultsPerPage
    ∧ (len (Recordings decoded) < maxResultsPerPage →
       Total decoded = maxResultsPerPage * Z.of_nat k + len (Recordings decoded)).

(** The bytes a stream delivers until its end or its first error. *)
Fixpoint stream_body (s : Stream) : list byte :=
  match s with
  | [] => []
  | (data, rNil) :: s => data ++ stream_body s
  | (data, _) :: _ => data
  end.

(** How a stream ends: [io.EOF], or the first other error. *)
Fixpoint stream_end (s : Stream) : ReadErr :=
  match s with
  | [] => rEOF
  | (_, rNil) :: s => stream_end s
  | (_, err) :: _ => err
  end.

(** No [Read] delivers more than the 32 KiB the buffer holds. *)
Definition reads_fit (s : Stream) : Prop :=
  Forall (λ r : list byte * ReadErr, len r.1 <= 32 * 1024) s.

(** No [Write] to the file at [path] fails. *)
Definition disk_accepts (disk : Disk) (path : string) : Prop :=
  ∀ offset n, write_err disk path offset n = None.

Definition file_content (st : DlState) (path : string) : list byte :=
  default [] (files st !! path).

(** What the copy loop gives for a stream when no write fails. *)
Definition copy_outcome (totalBytes : Z) (s : Stream) : Run (Result Z) :=
  match stream_end s with
  | rFail e => Returned (Err (Errorf "error reading response" e))
  | _ => Returned (Ok (Int.i64 (totalBytes + len (stream_body s))))
  end.

(** ** Scenarios *)

Definition blank_recording (sessionID : string) : Recording :=
  {| SessionID := sessionID; SessionGuid := EmptyString; SafeName := EmptyString;
     FileName := EmptyString; Start := 0; End_ := 0; Duration := 0;
     User := EmptyString; RemoteMachine := EmptyString;
     AccountUsername := EmptyString; AccountPlatformID := EmptyString;
     AccountAddress := EmptyString; RecordedActivities := [];
     ConnectionComponentID := EmptyString; FromIP := EmptyString;
     Client := EmptyString; RiskScore := 0; Severity := EmptyString;
     RecordingFiles := []; VideoSize := 0; TextSize := 0;
     DetailsUrl := EmptyString |}.

(** [count] recordings, numbered from [first]. *)
Definition numbered_page (first : Z) (count : nat) : list Recording :=
  (λ i, blank_recording ("session-" +:+ Sprintf_d i)) <$> seqZ first (Z.of_nat count).

Definition page1 : list Recording := numbered_page 0 1000.
Definition page2 : list Recording := numbered_page 1000 1000.
Definition page3 : list Recording := numbered_page 2000 400.

(** Pages of 1000, 1000 and 400 records, each with [Total] 2400; it
    would go on with full pages if asked again. *)
Definition three_page_server : ListServer :=
  λ n _,
    match n with
    | 0%nat => ListResponse 200 {| Recordings := page1; Total := 2400 |}
    | 1%nat => ListResponse 200 {| Recordings := page2; Total := 2400 |}
    | 2%nat => ListResponse 200 {| Recordings := page3; Total := 2400 |}
    | _ => ListResponse 200 {| Recordings := page1; Total := 2400 |}
    end.

(** Full pages for ever, each reporting [Total] 50. *)
Definition total50_server : ListServer :=
  λ _ _, ListResponse 200 {| Recordings := page1; Total := 50 |}.

(** Full pages for ever, each reporting the largest [Total] an [int] holds. *)
Definition endless_server : ListServer :=
  λ _ _, ListResponse 200 {| Recordings := page1; Total := Int.MaxInt64 |}.

(** One page of 400 records that reports [Total] 2400. *)
Definition short_page_server : ListServer :=
  λ _ _, ListResponse 200 {| Recordings := page3; Total := 2400 |}.

(** An empty page, whatever is asked. *)
Definition empty_server : ListServer :=
  λ _ _, ListResponse 200 {| Recordings := []; Total := 0 |}.

Definition some_client : pvwaClient :=
  {| BaseURL := "https://pvwa.example.com"; Username := "auditor";
     AuthToken := "token" |}.

Definition empty_world : World := {| heap := ∅; requests := [] |}.

(** A world in which the caller holds a map with two entries. *)
Definition caller_world : World :=
  {| heap := {[ 0%nat := {[ "sort"%string := "name"%string;
                            "offset"%string := "7"%string ]} ]};
     requests := [] |}.

Definition rejecting_logon : Request → LogonReply :=
  λ _, LogonResponse 403 "Forbidden".

Definition unreachable_logon : Request → LogonReply :=
  λ _, LogonError "connection refused".

Definition accepting_logon : Request → LogonReply :=
  λ _, LogonResponse 200 (dq +:+ "c2Vzc2lvbg==" +:+ dq)%string.

Definition quiet_disk : Disk :=
  {| mkdir_err := λ _, None; create_err := λ _, None;
     write_err := λ _ _ _, None |}.


Definition join_slash : list string → string := String.concat "/".

Definition fresh_state : DlState := {| files := ∅; events := []; deferred := [] |}.

Definition two_recordings : SessionRecordings :=
  {| Recordings := [blank_recording "a"; blank_recording "b"]; Total := 2 |}.

Definition one_recording : SessionRecordings :=
  {| Recordings := [blank_recording "a"]; Total := 1 |}.

(** Every session plays as three bytes, delivered in two reads. *)
Definition play_ok : Request → PlayReply :=
  λ _, PlayResponse 200 (Some [([x41; x56], rNil); ([x49], rEOF)]).

(** Every session is refused with status 500 and a body of its own. *)
Definition play_500 : Request → PlayReply :=
  λ _, PlayResponse 500 (Some [([x6f; x6f; x70; x73], rEOF)]).

(** 100,000 bytes in reads of 30000, 0, 32768, 32768 and 4464 bytes, the
    last one with [io.EOF]. *)
Definition chunky_stream : Stream :=
  [(replicate (Z.to_nat 30000) x01, rNil); ([], rNil);
   (replicate (Z.to_nat 32768) x02, rNil);
   (replicate (Z.to_nat 32768) x03, rNil);
   (replicate (Z.to_nat 4464) x04, rEOF)].


(** The listing answers with one recording; the export and the download
    both return an error. *)
Definition listing_ok : Z → unit → Result SessionRecordings * unit :=
  λ _ st, (Ok one_recording, st).

Definition export_fails : string → SessionRecordings → unit → option error * unit :=
  λ _ _ st, (Some "error creating directory: permission denied"%string, st).

Definition download_fails : string → SessionRecordings → unit → option error * unit :=
  λ _ _ st, (Some "unexpected status code: 500"%string, st).

(** ** The rest of the program *)

(** ** [SaveToJSON] *)

Section JsonExport.

Variable disk : Disk.
(** [json.MarshalIndent] of a recording, indented by four blanks *)
Variable MarshalIndent : Recording → Result (list byte).
(** [filepath.Join] *)
Variable Join : list string → string.

(** [os.WriteFile(name, data, 0644)]: the file is created or truncated,
    then written in one [Write]. *)
Definition os_WriteFile (name : string) (data : list byte)
    (fs : gmap string (list byte)) : option error * gmap string (list byte) :=
  match create_err disk name with
  | Some err => (Some err, fs)
  | None =>
    match write_err disk name 0 (len data) with
    | Some err => (Some err, <[name := []]> fs)
    | None => (None, <[name := data]> fs)
    end
  end.

(** The loop over the recordings. *)
Fixpoint SaveToJSON_each (dirname : string) (recordings : list Recording)
    (fs : gmap string (list byte)) : option error * gmap string (list byte) :=
  match recordings with
  | [] => (None, fs)
  | session :: recordings =>
    match MarshalIndent session with
    | Err err => (Some (Errorf "error marshaling to JSON" err), fs)
    | Ok jsonData =>
      let filename := Join [dirname; (SessionID session +:+ ".json")%string] in
      match os_WriteFile filename jsonData fs with
      | (Some err, fs) => (Some (Errorf "error writing JSON to file" err), fs)
      | (None, fs) => SaveToJSON_each dirname recordings fs
      end
    end
  end.

Definition SaveToJSON (s : SessionRecordings) (dirname : string)
    (fs : gmap string (list byte)) : option error * gmap string (list byte) :=
  match mkdir_err disk dirname with
  | Some err => (Some (Errorf "error creating directory" err), fs)
  | None => SaveToJSON_each dirname (Recordings s) fs
  end.

End JsonExport.

(** The file the metadata of a recording is written to. *)
Definition json_path (Join : list string → string) (dirname : string)
    (recording : Recording) : string :=
  Join [dirname; (SessionID recording +:+ ".json")%string].

(** A recording whose export meets no failure. *)
Definition exports_cleanly (disk : Disk) (MarshalIndent : Recording → Result (list byte))
    (Join : list string → string) (dirname : string) (recording : Recording) : Prop :=
  ∃ jsonData, MarshalIndent recording = Ok jsonData
    ∧ create_err disk (json_path Join dirname recording) = None
    ∧ write_err disk (json_path Join dirname recording) 0 (len jsonData) = None.

(** The files a successful export writes, in order. *)
Definition exported (MarshalIndent : Recording → Result (list byte))
    (Join : list string → string) (dirname : string) (recordings : list Recording)
  : list (string * list byte) :=
  omap (λ session, match MarshalIndent session with
                   | Ok jsonData => Some (json_path Join dirname session, jsonData)
                   | Err _ => None
                   end) recordings.

(** ** [NewPVWAConfig] *)

Section Config.

Variable logon : Request → LogonReply.
(** [strings.TrimSpace] *)
Variable TrimSpace : string → string.

(** [PVWA_PASSWORD] is the value of the environment variable (empty when
    it is not set) and [ReadPassword] what [term.ReadPassword] gives when
    it is called. *)
Definition NewPVWAConfig (baseURL username : string) (PVWA_PASSWORD : string)
    (ReadPassword : Result string) : Result pvwaClient :=
  if String.eqb baseURL EmptyString then Err "baseURL cannot be empty"
  else if String.eqb username EmptyString then Err "username cannot be empty"
  else
    let password :=
      if String.eqb PVWA_PASSWORD EmptyString then
        match ReadPassword with
        | Err err => Err (Errorf "error reading password" err)
        | Ok bytePassword =>
          let password := TrimSpace bytePassword in
          if String.eqb password EmptyString then Err "password cannot be empty"
          else Ok password
        end
      else Ok PVWA_PASSWORD in
    match password with
    | Err err => Err err
    | Ok password =>
      let pvwaConfig :=
        {| BaseURL := baseURL; Username := username; AuthToken := EmptyString |} in
      match GetAuthToken logon pvwaConfig password with
      | (Some err, _) => Err ("could not get an authorization token " +:+ err)%string
      | (None, pvwaConfig) => Ok pvwaConfig
      end
    end.

End Config.

(** The password [NewPVWAConfig] logs on with, when it gets to log on. *)
Definition chosen_password (TrimSpace : string → string) (PVWA_PASSWORD : string)
    (ReadPassword : Result string) : option string :=
  if String.eqb PVWA_PASSWORD EmptyString then
    match ReadPassword with
    | Ok bytePassword => Some (TrimSpace bytePassword)
    | Err _ => None
    end
  else Some PVWA_PASSWORD.

Definition first_char (s : string) : option ascii :=
  match s with
  | EmptyString => None
  | String c _ => Some c
  end.

Fixpoint last_char (s : string) : option ascii :=
  match s with
  | EmptyString => None
  | String c EmptyString => Some c
  | String _ s => last_char s
  end.

(** ** [parseMonths] *)

(** A function that may end the process with [log.Fatal]: it gives its
    value, or the message the process dies with (status 1). *)
Inductive OrFatal (A : Type) : Type :=
| Proceed (a : A)
| LogFatal (message : string).
Arguments Proceed {A} a.
Arguments LogFatal {A} message.

Section Flags.

(** [strings.Contains], [strings.Split], [strings.TrimSpace], [strconv.Atoi] *)
Variable Contains : string → string → bool.
Variable Split : string → string → list string.
Variable TrimSpace : string → string.
Variable Atoi : string → Result Z.

(** [for i := start; i <= end; i++ { ... }] *)
Fixpoint parseMonths_range (fuel : nat) (i end_ : Z) (months : list Z)
  : Run (OrFatal (list Z)) :=
  match fuel with
  | O => Diverged
  | S fuel =>
    if i <=? end_ then
      if (i <? 1) || (i >? 12) then
        Returned (LogFatal "months must be between 1 and 12")
      else parseMonths_range fuel (Int.i64 (i + 1)) end_ (months ++ [i])
    else Returned (Proceed months)
  end.

(** [for _, m := range strings.Split(monthsFlag, ",") { ... }] *)
Fixpoint parseMonths_list (items : list string) (months : list Z)
  : OrFatal (list Z) :=
  match items with
  | [] => Proceed months
  | m :: items =>
    match Atoi (TrimSpace m) with
    | Err err => LogFatal ("invalid month:" +:+ err)
    | Ok month =>
      if (month <? 1) || (month >? 12) then
        LogFatal "months must be between 1 and 12"
      else parseMonths_list items (months ++ [month])
    end
  end.

Definition parseMonths (fuel : nat) (monthsFlag : string) : Run (OrFatal (list Z)) :=
  if Contains monthsFlag "-" then
    let parts := Split monthsFlag "-" in
    match parts with
    | [part0; part1] =>
      match Atoi part0 with
      | Err err => Returned (LogFatal ("invalid start month:" +:+ err))
      | Ok start =>
        match Atoi part1 with
        | Err err => Returned (LogFatal ("invalid end month:" +:+ err))
        | Ok end_ => parseMonths_range fuel start end_ []
        end
      end
    | _ => Returned (LogFatal
                       "invalid month range format. Use 'start-end' (e.g. '1-12')")
    end
  else Returned (parseMonths_list (Split monthsFlag ",") []).

End Flags.

Definition valid_month (m : Z) : Prop := 1 <= m <= 12.

(** The page the loop works with after a reply. *)
Definition effective_page (reply : ListReply) : SessionRecordings :=
  match reply with
  | ListError _ => SessionRecordings_zero
  | ListResponse status decoded =>
    if IsSuccess status then decoded else SessionRecordings_zero
  end.

(** The offset of the [i]-th request of a call. *)
Definition page_offset (i : nat) : Z := Int.i64 (maxResultsPerPage * Z.of_nat i).

(** The reply to the [i]-th request of a call that starts in world [w]. *)
Definition nth_reply (srv : ListServer) (p : pvwaClient) (w : World)
    (queryParams : Heap.mapref) (i : nat) : ListReply :=
  srv (length (requests w) + i)%nat (page_request p (heap w) queryParams (page_offset i)).

Definition failing_server : ListServer := λ _ _, ListError "timeout".
Definition refusing_server : ListServer :=
  λ _ _, ListResponse 401 {| Recordings := page3; Total := 2400 |}.

Definition opened_files (evs : list Event) : list string :=
  omap (λ e, match e with EvOpenFile path => Some path | _ => None end) evs.
Definition closed_files (evs : list Event) : list string :=
  omap (λ e, match e with EvCloseFile path => Some path | _ => None end) evs.
Definition opened_bodies (evs : list Event) : list string :=
  omap (λ e, match e with EvOpenBody sid => Some sid | _ => None end) evs.
Definition closed_bodies (evs : list Event) : list string :=
  omap (λ e, match e with EvCloseBody sid => Some sid | _ => None end) evs.
Definition deferred_files (ds : list Deferred) : list string :=
  omap (λ d, match d with DeferCloseFile path => Some path | _ => None end) ds.
Definition deferred_bodies (ds : list Deferred) : list string :=
  omap (λ d, match d with DeferCloseBody sid => Some sid | _ => None end) ds.

(** An event of the copy loop: a write, a failed write or a progress line. *)
Definition copy_event (e : Event) : Prop :=
  match e with
  | EvWrite _ _ | EvWriteFailed _ | EvProgress _ _ => True
  | _ => False
  end.

(** The file a recording is saved to. *)
Definition avi_path (Join : list string → string) (outputPath : string)
    (recording : Recording) : string :=
  Join [outputPath; (SessionID recording +:+ ".avi")%string].

(** A recording whose download meets no failure: its file can be created
    and written, the server plays it with status 200, and the stream ends
    with [io.EOF] within the fuel. *)
Definition downloads_cleanly (disk : Disk) (play : Request → PlayReply)
    (Join : list string → string) (p : pvwaClient) (fuel : nat)
    (outputPath : string) (recording : Recording) : Prop :=
  create_err disk (avi_path Join outputPath recording) = None
  ∧ disk_accepts disk (avi_path Join outputPath recording)
  ∧ ∃ body, play (play_request p (SessionID recording)) = PlayResponse 200 (Some body)
            ∧ reads_fit body ∧ stream_end body = rEOF ∧ (length body < fuel)%nat.

(** The calls the driver makes for a month whose listing succeeds. *)
Definition month_calls (Join : list string → string) (m : Z) : list DriverEvent :=
  [CallGetRecordingsByMonth m;
   CallSaveToJSON (Join ["."; "downloaded_recordings/"; Sprintf_d m +:+ "/"]%string);
   CallDownloadRecordings
     (Join ["."; "downloaded_recordings/"; Sprintf_d m +:+ "/"]%string)].

Definition listing_fails_in_june : Z → unit → Result SessionRecordings * unit :=
  λ m st, if m =? 6 then (Err "could not retrieve recordings at offset 0: timeout"%string, st)
          else (Ok one_recording, st).

(** The query of a page of [GetRecordingsByMonth]. *)
Definition month_query (month offset : Z) : gmap string string :=
  list_to_map
    [("offset", Sprintf_d offset); ("sort", "name"); ("order", "asc");
     ("fromtime", Sprintf_d (time.Unix (month_from month)));
     ("totime", Sprintf_d (time.Unix (month_to month)))]%string.

(** The query of a page of [GetAllRecordings]. *)
Definition all_query (offset : Z) : gmap string string :=
  list_to_map [("offset", Sprintf_d offset); ("sort", "name"); ("order", "asc")]%string.

(** Stand-ins for the library functions on flags made of digits, commas,
    dashes and blanks. *)
Definition flag_Contains (s substr : string) : bool :=
  match index 0 substr s with
  | Some _ => true
  | None => false
  end.

Fixpoint flag_Split_at (sep : ascii) (s : string) : string * list string :=
  match s with
  | EmptyString => (EmptyString, [])
  | String c s =>
    let '(part, parts) := flag_Split_at sep s in
    if Ascii.eqb c sep then (EmptyString, part :: parts) else (String c part, parts)
  end.

Definition flag_Split (s sep : string) : list string :=
  match sep with
  | String c EmptyString => let '(part, parts) := flag_Split_at c s in part :: parts
  | _ => [s]
  end.

Definition flag_TrimSpace (s : string) : string := Trim s " ".

Fixpoint flag_digits (s : string) (acc : Z) : option Z :=
  match s with
  | EmptyString => Some acc
  | String c s =>
    let d := Z.of_nat (nat_of_ascii c) - 48 in
    if (0 <=? d) && (d <=? 9) then flag_digits s (10 * acc + d) else None
  end.

Definition flag_Atoi (s : string) : Result Z :=
  match s with
  | EmptyString => Err "invalid syntax"
  | _ => match flag_digits s 0 with
         | Some n => Ok n
         | None => Err "invalid syntax"
         end
  end.

(** Each recording marshals to the bytes of its [SessionID]. *)
Definition marshal_id (session : Recording) : Result (list byte) :=
  Ok (list_byte_of_string (SessionID session)).

(** * Properties *)

(** ** Machine integers *)

Lemma i64_range x : Int.in_i64 (Int.i64 x).
Proof.
  unfold Int.in_i64, Int.i64, Int.MinInt64, Int.MaxInt64, Int.two63, Int.two64.
  pose proof (Z.mod_pos_bound (x + 2 ^ 63) (2 ^ 64)). lia.
Qed.

Lemma i64_small x : Int.in_i64 x → Int.i64 x = x.
Proof.
  unfold Int.in_i64, Int.i64, Int.MinInt64, Int.MaxInt64, Int.two63, Int.two64.
  intros H. rewrite Z.mod_small; lia.
Qed.

Lemma i64_mod8 x : Int.i64 x mod 8 = x mod 8.
Proof.
  unfold Int.i64, Int.two63, Int.two64.
  pose proof (Z.div_mod (x + 2 ^ 63) (2 ^ 64) ltac:(lia)) as E.
  set (q := (x + 2 ^ 63) / 2 ^ 64) in *.
  set (r := (x + 2 ^ 63) mod 2 ^ 64) in *.
  assert (Hx : x = r - 2 ^ 63 + (q * 2 ^ 61) * 8) by lia.
  rewrite Hx at 1. symmetry. apply Z.mod_add. lia.
Qed.

Lemma i64_add_l a b : Int.i64 (Int.i64 a + b) = Int.i64 (a + b).
Proof.
  unfold Int.i64. f_equal.
  replace ((a + Int.two63) `mod` Int.two64 - Int.two63 + b + Int.two63)
    with ((a + Int.two63) `mod` Int.two64 + b) by lia.
  rewrite Z.add_mod_idemp_l by (unfold Int.two64; lia). f_equal. lia.
Qed.

Lemma i64_next_offset offset :
  0 <= offset → offset + maxResultsPerPage <= Int.MaxInt64 →
  Int.i64 (offset + maxResultsPerPage) = offset + maxResultsPerPage.
Proof.
  intros. apply i64_small.
  unfold Int.in_i64, Int.MinInt64, Int.two63, maxResultsPerPage in *. lia.
Qed.

(** ** The heap of maps *)

Lemma store_lookup_eq (h : gmap Heap.loc (gmap string string)) l m k v :
  h !! l = Some m → Heap.store h l k v !! l = Some (<[k := v]> m).
Proof. intros H. unfold Heap.store. by rewrite lookup_alter_eq, H. Qed.

Lemma foldl_store (h : gmap Heap.loc (gmap string string)) l
    (m : gmap string string) (entries : list (string * string)) :
  h !! l = Some m →
  foldl (λ h kv, Heap.store h l kv.1 kv.2) h entries
  = <[l := foldl (λ m kv, <[kv.1 := kv.2]> m) m entries]> h.
Proof.
  revert h m. induction entries as [|[k v] entries IH]; intros h m Hl; simpl.
  - by rewrite insert_id.
  - rewrite (IH _ (<[k := v]> m)) by by apply store_lookup_eq.
    unfold Heap.store. apply map_eq. intros l'.
    destruct (decide (l = l')) as [->|Hne].
    + by rewrite !lookup_insert_eq.
    + by rewrite !lookup_insert_ne, lookup_alter_ne.
Qed.

Lemma foldl_insert_union (m : gmap string string) (entries : list (string * string)) :
  foldl (λ m kv, <[kv.1 := kv.2]> m) m entries = list_to_map (reverse entries) ∪ m.
Proof.
  revert m. induction entries as [|[k v] entries IH]; intros m; simpl.
  - by rewrite (left_id_L ∅ (∪)).
  - rewrite IH, reverse_cons, list_to_map_app. simpl.
    rewrite <- (assoc_L (∪)). f_equal.
    by rewrite insert_empty, <- insert_union_singleton_l.
Qed.

(** Ranging over a map and storing every pair into an empty map copies
    the map, in whatever order the pairs come. *)
Lemma foldl_insert_map_to_list (m : gmap string string) :
  foldl (λ m kv, <[kv.1 := kv.2]> m) ∅ (map_to_list m) = m.
Proof.
  rewrite foldl_insert_union, (right_id_L ∅ (∪)).
  rewrite <- (list_to_map_to_list m) at 2.
  apply list_to_map_proper.
  - rewrite fmap_reverse, reverse_Permutation. apply NoDup_fst_map_to_list.
  - apply reverse_Permutation.
Qed.

Lemma contents_insert_fresh (h : gmap Heap.loc (gmap string string)) qp m :
  Heap.valid h qp →
  Heap.contents (<[fresh (dom h) := m]> h) qp = Heap.contents h qp.
Proof.
  destruct qp as [|l]; simpl; [done|]. intros Hl.
  rewrite lookup_insert_ne; [done|]. intros E. rewrite <- E in Hl.
  by apply (is_fresh (dom h)).
Qed.

Lemma valid_insert (h : gmap Heap.loc (gmap string string)) qp l m :
  Heap.valid h qp → Heap.valid (<[l := m]> h) qp.
Proof. destruct qp; simpl; [done|]. rewrite dom_insert_L. set_solver. Qed.

Lemma contents_subseteq (h h' : gmap Heap.loc (gmap string string)) qp :
  Heap.valid h qp → h ⊆ h' → Heap.contents h' qp = Heap.contents h qp.
Proof.
  destruct qp as [|l]; simpl; [done|]. intros Hl Hsub.
  apply elem_of_dom in Hl as [m Hm]. rewrite Hm.
  by rewrite (lookup_weaken _ _ _ _ Hm Hsub).
Qed.

(** The first three statements of an iteration leave the heap with one
    more map: the caller's pairs with [offset] overwritten. *)
Lemma prepare_params (h : gmap Heap.loc (gmap string string)) qp o :
  Heap.valid h qp →
  Heap.store (Heap.copy_into (Heap.make h).2 qp (Heap.make h).1)
    (Heap.make h).1 "offset" o
  = <[fresh (dom h) := <["offset"%string := o]> (Heap.contents h qp)]> h.
Proof.
  intros Hv. unfold Heap.make, Heap.copy_into. simpl.
  rewrite contents_insert_fresh by done.
  rewrite (foldl_store _ _ ∅) by apply lookup_insert_eq.
  rewrite foldl_insert_map_to_list, insert_insert_eq.
  unfold Heap.store. apply map_eq. intros l.
  destruct (decide (fresh (dom h) = l)) as [<-|Hne].
  - by rewrite lookup_alter_eq, !lookup_insert_eq.
  - by rewrite lookup_alter_ne, !lookup_insert_ne.
Qed.

(** ** The pagination loop, one iteration at a time *)

Section ListingFacts.

Variable srv : ListServer.
Variable p : pvwaClient.

Lemma loop_step fuel qp offset all w :
  Heap.valid (heap w) qp →
  GetRecordings_loop srv p (S fuel) qp offset all w
  = after_reply srv p fuel qp offset all (after_request p w qp offset)
      (srv (length (requests w)) (page_request p (heap w) qp offset)).
Proof.
  intros Hv. cbn [GetRecordings_loop].
  pose proof (prepare_params (heap w) qp (Sprintf_d offset) Hv) as E.
  unfold Heap.make in *. cbv beta iota zeta in *. cbn [fst snd] in E. rewrite E.
  cbn [Heap.contents]. by rewrite lookup_insert_eq.
Qed.

Lemma after_request_valid w qp offset :
  Heap.valid (heap w) qp → Heap.valid (heap (after_request p w qp offset)) qp.
Proof. intros. simpl. by apply valid_insert. Qed.

Lemma after_request_heap w qp offset : heap w ⊆ heap (after_request p w qp offset).
Proof. simpl. apply insert_subseteq, not_elem_of_dom, is_fresh. Qed.

Lemma after_request_length w qp offset :
  length (requests (after_request p w qp offset)) = S (length (requests w)).
Proof. simpl. rewrite length_app. simpl. lia. Qed.

Lemma loop_frame fuel qp : ∀ offset all w,
  Heap.valid (heap w) qp →
  heap w ⊆ heap (GetRecordings_loop srv p fuel qp offset all w).2
  ∧ ∃ offsets, requests (GetRecordings_loop srv p fuel qp offset all w).2
      = requests w ++ map (page_request p (heap w) qp) offsets.
Proof.
  induction fuel as [|fuel IH]; intros offset all w Hv.
  - simpl. split; [done|]. exists []. by rewrite app_nil_r.
  - rewrite loop_step by done.
    assert (Hone : heap w ⊆ heap (after_request p w qp offset)
      ∧ ∃ offsets, requests (after_request p w qp offset)
          = requests w ++ map (page_request p (heap w) qp) offsets).
    { split; [apply after_request_heap|]. by exists [offset]. }
    destruct (srv _ _) as [err|status decoded]; cbn [after_reply snd]; [done|].
    destruct (_ <? _); [done|]. destruct (_ >=? _); [done|].
    destruct (IH (Int.i64 (offset + maxResultsPerPage))
      {| Recordings := Recordings all ++
           Recordings (if IsSuccess status then decoded else SessionRecordings_zero);
         Total := Total (if IsSuccess status then decoded else SessionRecordings_zero) |}
      (after_request p w qp offset)
      (after_request_valid w qp offset Hv)) as [Hsub [offs Hreq]].
    split.
    + etrans; [apply after_request_heap|done].
    + exists (offset :: offs). rewrite Hreq. cbn [after_request requests].
      rewrite <- app_assoc. simpl. do 2 f_equal.
      unfold page_request. apply map_ext. intros o.
      by rewrite (contents_insert_fresh _ _ _ Hv).
Qed.

End ListingFacts.

(** ** [GetRecordings] and the caller's map *)

(** C10. [GetRecordings] never mutates the caller's [queryParams]: on
    every fuel, for every server and every map of the heap, the map holds
    the same pairs after the call as before, every map that existed
    before is unchanged, and every request of the call carries the
    caller's pairs with only [offset] overwritten. *)
Theorem GetRecordings_keeps_queryParams (srv : ListServer) (p : pvwaClient)
    (fuel : nat) (queryParams : Heap.mapref) (w : World) :
  Heap.valid (heap w) queryParams →
  Heap.contents (heap (GetRecordings srv p fuel queryParams w).2) queryParams
  = Heap.contents (heap w) queryParams
  ∧ heap w ⊆ heap (GetRecordings srv p fuel queryParams w).2
  ∧ ∃ offsets,
      requests (GetRecordings srv p fuel queryParams w).2
      = requests w ++
        map (λ offset, listing_request p
               (<["offset"%string := Sprintf_d offset]>
                  (Heap.contents (heap w) queryParams)))
            offsets.
Proof.
  intros Hv. unfold GetRecordings.
  destruct (loop_frame srv p fuel queryParams 0
              {| Recordings := []; Total := 0 |} w Hv) as [Hsub Hreq].
  destruct (GetRecordings_loop _ _ _ _ _ _ _) as [r w']. simpl in *.
  split; [by apply contents_subseteq|]. split; done.
Qed.

Lemma caller_world_valid : Heap.valid (heap caller_world) (Heap.ref 0%nat).
Proof. apply elem_of_dom. eexists. reflexivity. Qed.

(** C10 at the three-page server, called with a map that already has an
    [offset] entry. *)
Lemma GetRecordings_keeps_queryParams_witness :
  Heap.contents
    (heap (GetRecordings three_page_server some_client 5
             (Heap.ref 0%nat) caller_world).2) (Heap.ref 0%nat)
  = Heap.contents (heap caller_world) (Heap.ref 0%nat)
  ∧ heap caller_world
    ⊆ heap (GetRecordings three_page_server some_client 5
              (Heap.ref 0%nat) caller_world).2
  ∧ ∃ offsets,
      requests (GetRecordings three_page_server some_client 5
                  (Heap.ref 0%nat) caller_world).2
      = requests caller_world ++
        map (λ offset, listing_request some_client
               (<["offset"%string := Sprintf_d offset]>
                  (Heap.contents (heap caller_world) (Heap.ref 0%nat))))
            offsets.
Proof.
  apply (GetRecordings_keeps_queryParams three_page_server some_client 5
           (Heap.ref 0%nat) caller_world).
  exact caller_world_valid.
Defined.

(** ** Pages of 1000, 1000 and 400 records *)

(** C4. Against a server whose next three pages have 1000, 1000 and 400
    records, each with [Total] 2400, [GetRecordings] returns the three
    pages concatenated in order, 2400 records, and sends exactly three
    requests, at offsets 0, 1000 and 2000, however much fuel is left. *)
Theorem pagination_three_pages (srv : ListServer) (p : pvwaClient)
    (queryParams : Heap.mapref) (w : World)
    (pg1 pg2 pg3 : list Recording) (k : nat) :
  Heap.valid (heap w) queryParams →
  (∀ rq, srv (length (requests w)) rq
         = ListResponse 200 {| Recordings := pg1; Total := 2400 |}) →
  (∀ rq, srv (S (length (requests w))) rq
         = ListResponse 200 {| Recordings := pg2; Total := 2400 |}) →
  (∀ rq, srv (S (S (length (requests w)))) rq
         = ListResponse 200 {| Recordings := pg3; Total := 2400 |}) →
  len pg1 = 1000 → len pg2 = 1000 → len pg3 = 400 →
  (GetRecordings srv p (3 + k) queryParams w).1
  = Returned (Ok {| Recordings := pg1 ++ pg2 ++ pg3; Total := 2400 |})
  ∧ len (pg1 ++ pg2 ++ pg3) = 2400
  ∧ requests (GetRecordings srv p (3 + k) queryParams w).2
    = requests w ++
      map (λ offset, listing_request p
             (<["offset"%string := offset]> (Heap.contents (heap w) queryParams)))
          ["0"; "1000"; "2000"]%string.
Proof.
  intros Hv H1 H2 H3 L1 L2 L3.
  assert (Hlen : len (pg1 ++ pg2 ++ pg3) = 2400).
  { unfold len in *. rewrite !length_app. lia. }
  unfold GetRecordings. cbn [Nat.add].
  rewrite loop_step, H1 by done. cbn [after_reply].
  change (IsSuccess 200) with true. cbn [Recordings Total app].
  rewrite L1. change (1000 <? maxResultsPerPage) with false.
  change (Int.i64 (0 + maxResultsPerPage)) with 1000.
  change (1000 >=? 2400) with false. cbv iota.
  pose proof (after_request_valid p w queryParams 0 Hv) as Hv1.
  rewrite loop_step, after_request_length, H2 by done. cbn [after_reply].
  change (IsSuccess 200) with true. cbn [Recordings Total].
  rewrite L2. change (1000 <? maxResultsPerPage) with false.
  change (Int.i64 (1000 + maxResultsPerPage)) with 2000.
  change (2000 >=? 2400) with false. cbv iota.
  pose proof (after_request_valid p _ queryParams 1000 Hv1) as Hv2.
  rewrite loop_step, !after_request_length, H3 by done. cbn [after_reply].
  change (IsSuccess 200) with true. cbn [Recordings Total].
  rewrite L3. change (400 <? maxResultsPerPage) with true. cbv iota.
  cbn [forget_exit fst snd]. rewrite <- app_assoc. split; [done|]. split; [done|].
  cbn [after_request requests]. rewrite <- !app_assoc. cbn [app map].
  unfold page_request. cbn [after_request heap].
  rewrite !contents_insert_fresh; try done.
Qed.

(** C4 at the three-page server, which would send a fourth page if asked. *)
Lemma pagination_three_pages_witness :
  (GetRecordings three_page_server some_client 3 Heap.nilmap empty_world).1
  = Returned (Ok {| Recordings := page1 ++ page2 ++ page3; Total := 2400 |})
  ∧ len (page1 ++ page2 ++ page3) = 2400
  ∧ requests (GetRecordings three_page_server some_client 3
                Heap.nilmap empty_world).2
    = requests empty_world ++
      map (λ offset, listing_request some_client
             (<["offset"%string := offset]>
                (Heap.contents (heap empty_world) Heap.nilmap)))
          ["0"; "1000"; "2000"]%string.
Proof.
  apply (pagination_three_pages three_page_server some_client Heap.nilmap
           empty_world page1 page2 page3 0).
  - exact I.
  - intros rq. reflexivity.
  - intros rq. reflexivity.
  - intros rq. reflexivity.
  - vm_compute. reflexivity.
  - vm_compute. reflexivity.
  - vm_compute. reflexivity.
Defined.

(** ** Termination of the pagination loop *)

Lemma len_page1 : len page1 = 1000.
Proof. vm_compute. reflexivity. Qed.

(** Against full pages that report the largest [Total], the offset is a
    multiple of 8 for ever, also after it wraps around, so it never
    reaches the [Total]: the loop uses up any fuel. *)
Lemma endless_loop fuel qp : ∀ offset all w,
  Heap.valid (heap w) qp → offset mod 8 = 0 →
  (GetRecordings_loop endless_server some_client fuel qp offset all w).1 = Diverged.
Proof.
  induction fuel as [|fuel IH]; intros offset all w Hv Hmod; [done|].
  rewrite loop_step by done.
  change (endless_server _ _) with
    (ListResponse 200 {| Recordings := page1; Total := Int.MaxInt64 |}).
  cbn [after_reply].
  change (IsSuccess 200) with true. cbn [Recordings Total].
  rewrite len_page1. change (1000 <? maxResultsPerPage) with false. cbv iota.
  assert (Hmod' : Int.i64 (offset + maxResultsPerPage) mod 8 = 0).
  { rewrite i64_mod8. unfold maxResultsPerPage.
    rewrite <- Z.add_mod_idemp_l, Hmod by lia. reflexivity. }
  pose proof (i64_range (offset + maxResultsPerPage)) as Hr.
  destruct (_ >=? _) eqn:Hcut.
  - exfalso. unfold Int.in_i64 in Hr.
    assert (E : Int.i64 (offset + maxResultsPerPage) = Int.MaxInt64) by lia.
    rewrite E in Hmod'. vm_compute in Hmod'. discriminate.
  - apply IH; [by apply after_request_valid|done].
Qed.

(** C5, as stated, fails: the loop does not terminate for every server.
    Against [endless_server] no amount of fuel makes [GetRecordings]
    return. *)
Lemma GetRecordings_can_run_forever :
  ¬ (∀ (srv : ListServer) (p : pvwaClient) (queryParams : Heap.mapref) (w : World),
       Heap.valid (heap w) queryParams →
       ∃ fuel r, (GetRecordings srv p fuel queryParams w).1 = Returned r).
Proof.
  intros H.
  destruct (H endless_server some_client Heap.nilmap empty_world I) as [fuel [r Hr]].
  unfold GetRecordings in Hr.
  pose proof (endless_loop fuel Heap.nilmap 0 {| Recordings := []; Total := 0 |}
                empty_world I eq_refl) as Hd.
  destruct (GetRecordings_loop _ _ _ _ _ _ _) as [r0 w']. cbn [fst] in *.
  subst r0. discriminate.
Qed.

(** [max_requests B] is the least number of pages of 1000 that reach
    [B], and at least one. *)
Lemma max_requests_spec B :
  (1 <= max_requests B)%nat
  ∧ B <= maxResultsPerPage * Z.of_nat (max_requests B)
  ∧ (max_requests B = 1%nat
     ∨ maxResultsPerPage * (Z.of_nat (max_requests B) - 1) < B).
Proof.
  unfold max_requests, maxResultsPerPage.
  pose proof (Z.div_mod (B + 1000 - 1) 1000 ltac:(lia)) as Hd.
  pose proof (Z.mod_pos_bound (B + 1000 - 1) 1000 ltac:(lia)) as Hm.
  destruct (Z.max_spec 1 ((B + 1000 - 1) / 1000)) as [[Hlt ->]|[Hle ->]].
  - rewrite Z2Nat.id by lia. split; [lia|]. split; [lia|]. right. lia.
  - change (Z.to_nat 1) with 1%nat. split; [lia|]. split; [lia|]. by left.
Qed.

Section Termination.

Variable srv : ListServer.
Variable p : pvwaClient.
Variable B : Z.
Hypothesis HB : totals_bounded srv B.
Hypothesis HBmax : B + maxResultsPerPage <= Int.MaxInt64.

(** Under the bound, [k] iterations are enough when the offset is within
    [1000 * k] of [B], and every call sends a request. *)
Lemma loop_terminates fuel qp : ∀ (k : nat) offset all w,
  Heap.valid (heap w) qp →
  (1 <= k <= fuel)%nat →
  0 <= offset → offset + maxResultsPerPage <= Int.MaxInt64 →
  B - offset <= maxResultsPerPage * Z.of_nat k →
  ∃ r, (GetRecordings_loop srv p fuel qp offset all w).1 = Returned r
       ∧ (length (requests w)
          < length (requests (GetRecordings_loop srv p fuel qp offset all w).2)
          <= length (requests w) + k)%nat.
Proof.
  induction fuel as [|fuel IH]; intros k offset all w Hv Hk H0 Hmax Hfuel; [lia|].
  rewrite loop_step by done.
  pose proof (after_request_length p w qp offset) as Hlen.
  destruct (srv _ _) as [err|status decoded] eqn:Hsrv; cbn [after_reply].
  { eexists. split; [done|]. cbn [snd]. lia. }
  destruct (_ <? _).
  { eexists. split; [done|]. cbn [snd]. lia. }
  rewrite i64_next_offset by done.
  destruct (_ >=? _) eqn:Hcut.
  { eexists. split; [done|]. cbn [snd]. lia. }
  assert (Hlt : offset + maxResultsPerPage < B).
  { destruct (IsSuccess status) eqn:Hs.
    - pose proof (HB _ _ _ _ Hsrv Hs). lia.
    - simpl in Hcut. unfold maxResultsPerPage in *. lia. }
  destruct (IH (k - 1)%nat (offset + maxResultsPerPage)
    {| Recordings := Recordings all ++
         Recordings (if IsSuccess status then decoded else SessionRecordings_zero);
       Total := Total (if IsSuccess status then decoded else SessionRecordings_zero) |}
    (after_request p w qp offset)) as [r [Hr Hn]].
  - by apply after_request_valid.
  - unfold maxResultsPerPage in *. lia.
  - unfold maxResultsPerPage in *. lia.
  - lia.
  - unfold maxResultsPerPage in *. lia.
  - exists r. split; [done|]. lia.
Qed.

(** Against full pages that all report [B], the loop takes exactly the
    [k] iterations that bring the offset to [B], and leaves through the
    safety check. *)
Hypothesis Hfull : full_pages srv B.

Lemma loop_full_pages fuel qp : ∀ (k : nat) offset all w,
  Heap.valid (heap w) qp →
  (1 <= k <= fuel)%nat →
  0 <= offset → offset + maxResultsPerPage <= Int.MaxInt64 →
  B - offset <= maxResultsPerPage * Z.of_nat k →
  k = 1%nat ∨ maxResultsPerPage * (Z.of_nat k - 1) < B - offset →
  (∃ res, (GetRecordings_loop srv p fuel qp offset all w).1
          = Returned (Ok (res, SafetyCheck)))
  ∧ length (requests (GetRecordings_loop srv p fuel qp offset all w).2)
    = (length (requests w) + k)%nat.
Proof.
  induction fuel as [|fuel IH]; intros k offset all w Hv Hk H0 Hmax Hup Hlow; [lia|].
  rewrite loop_step by done.
  pose proof (after_request_length p w qp offset) as Hlen.
  destruct (Hfull (length (requests w)) (page_request p (heap w) qp offset))
    as (status & pg & -> & Hs & Hpg).
  cbn [after_reply]. rewrite Hs. cbn [Recordings Total].
  assert ((len pg <? maxResultsPerPage) = false) as -> by by apply Z.ltb_ge.
  rewrite i64_next_offset by done.
  destruct (_ >=? _) eqn:Hcut.
  - apply Z.geb_le in Hcut. cbn [fst snd].
    assert (k = 1%nat) as -> by (unfold maxResultsPerPage in *; lia).
    split; [by eexists|lia].
  - rewrite Z.geb_leb in Hcut. apply Z.leb_gt in Hcut.
    destruct (IH (k - 1)%nat (offset + maxResultsPerPage)
      {| Recordings := Recordings all ++ pg; Total := B |}
      (after_request p w qp offset)) as [Hres Hn].
    + by apply after_request_valid.
    + unfold maxResultsPerPage in *. lia.
    + unfold maxResultsPerPage in *. lia.
    + lia.
    + unfold maxResultsPerPage in *. lia.
    + unfold maxResultsPerPage in *. right. lia.
    + split; [done|]. rewrite Hn. lia.
Qed.

End Termination.

(** C5, amended. When every [Total] the server reports is at most [B]
    (with [B + 1000] an [int]), [GetRecordings] returns on any fuel of at
    least [max_requests B], which is one or [B / 1000] rounded up, having
    sent at least one request and at most [max_requests B]: the check
    [offset >= Total] stops it whatever the pages hold. The bound is
    reached: when every reply is a full page that reports the [Total]
    [B], the loop is left through that check after exactly
    [max_requests B] requests, the first time the advanced offset reaches
    or exceeds [B]. *)
Theorem GetRecordings_terminates_when_totals_bounded (srv : ListServer)
    (p : pvwaClient) (B : Z) (fuel : nat) (queryParams : Heap.mapref) (w : World) :
  Heap.valid (heap w) queryParams →
  totals_bounded srv B →
  B + maxResultsPerPage <= Int.MaxInt64 →
  (max_requests B <= fuel)%nat →
  (∃ r, (GetRecordings srv p fuel queryParams w).1 = Returned r
        ∧ (length (requests w)
           < length (requests (GetRecordings srv p fuel queryParams w).2)
           <= length (requests w) + max_requests B)%nat)
  ∧ (full_pages srv B →
     (∃ res, (GetRecordings_loop srv p fuel queryParams 0
                {| Recordings := []; Total := 0 |} w).1
             = Returned (Ok (res, SafetyCheck)))
     ∧ length (requests (GetRecordings srv p fuel queryParams w).2)
       = (length (requests w) + max_requests B)%nat).
Proof.
  intros Hv HB Hmax Hfuel.
  destruct (max_requests_spec B) as (H1 & Hup & Hlow).
  assert (Hmax0 : 0 + maxResultsPerPage <= Int.MaxInt64).
  { unfold maxResultsPerPage, Int.MaxInt64, Int.two63. lia. }
  split.
  - unfold GetRecordings.
    destruct (loop_terminates srv p B HB Hmax fuel queryParams (max_requests B) 0
                {| Recordings := []; Total := 0 |} w Hv) as [r [Hr Hn]];
      [lia|lia|done|lia|].
    destruct (GetRecordings_loop _ _ _ _ _ _ _) as [r0 w'] eqn:E. cbn [fst snd] in *.
    subst r0. destruct r as [[s e]|e]; eexists; (split; [reflexivity|lia]).
  - intros Hfull. unfold GetRecordings.
    destruct (loop_full_pages srv p B Hmax Hfull fuel queryParams (max_requests B) 0
                {| Recordings := []; Total := 0 |} w Hv) as [Hres Hn];
      [lia|lia|done|lia|..].
    { destruct Hlow as [?|?]; [by left|right; lia]. }
    destruct (GetRecordings_loop _ _ _ _ _ _ _) as [r0 w'] eqn:E. cbn [fst snd] in *.
    done.
Qed.

Lemma total50_server_bounded : totals_bounded total50_server 50.
Proof.
  intros n rq status decoded H _. injection H as _ <-. cbn. lia.
Qed.

Lemma total50_server_full : full_pages total50_server 50.
Proof.
  intros n rq. exists 200, page1. split; [done|]. split; [done|].
  rewrite len_page1. done.
Qed.

(** C5, amended, at the server that reports [Total] 50 with full pages:
    one unit of fuel is enough, exactly one request is sent, and the loop
    is left through the safety check. *)
Lemma GetRecordings_terminates_when_totals_bounded_witness :
  (∃ r, (GetRecordings total50_server some_client 1 Heap.nilmap empty_world).1
        = Returned r
        ∧ (length (requests empty_world)
           < length (requests (GetRecordings total50_server some_client 1
                                 Heap.nilmap empty_world).2)
           <= length (requests empty_world) + max_requests 50)%nat)
  ∧ (∃ res, (GetRecordings_loop total50_server some_client 1 Heap.nilmap 0
               {| Recordings := []; Total := 0 |} empty_world).1
            = Returned (Ok (res, SafetyCheck)))
  ∧ length (requests (GetRecordings total50_server some_client 1
                        Heap.nilmap empty_world).2)
    = (length (requests empty_world) + max_requests 50)%nat.
Proof.
  destruct (GetRecordings_terminates_when_totals_bounded total50_server some_client
              50 1 Heap.nilmap empty_world) as [Hbound Hexact].
  - exact I.
  - exact total50_server_bounded.
  - vm_compute. discriminate.
  - vm_compute. lia.
  - split; [exact Hbound|]. exact (Hexact total50_server_full).
Defined.

(** With [Total] 50 and full pages the loop is left through the safety
    check after the first page, at offset 1000. *)
Lemma total50_stops_after_first_page fuel :
  (GetRecordings_loop total50_server some_client (S fuel) Heap.nilmap 0
     {| Recordings := []; Total := 0 |} empty_world).1
  = Returned (Ok ({| Recordings := page1; Total := 50 |}, SafetyCheck)).
Proof.
  rewrite loop_step by exact I.
  change (total50_server _ _) with
    (ListResponse 200 {| Recordings := page1; Total := 50 |}).
  cbn [after_reply]. change (IsSuccess 200) with true. cbn [Recordings Total app].
  rewrite len_page1. reflexivity.
Qed.

(** ** The length of the result and [Total] *)

(** C8, as stated, fails: a short first page that reports a larger
    [Total] ends the loop through the first [break], with 400 records
    and [Total] 2400. *)
Lemma short_page_breaks_length_invariant :
  ¬ (∀ (srv : ListServer) (p : pvwaClient) (fuel : nat)
       (queryParams : Heap.mapref) (w : World) (res : SessionRecordings),
       Heap.valid (heap w) queryParams →
       (GetRecordings srv p fuel queryParams w).1 = Returned (Ok res) →
       len (Recordings res) = Total res
       ∨ (GetRecordings_loop srv p fuel queryParams 0
            {| Recordings := []; Total := 0 |} w).1
         = Returned (Ok (res, SafetyCheck))).
Proof.
  intros H.
  destruct (H short_page_server some_client 1%nat Heap.nilmap empty_world
              {| Recordings := page3; Total := 2400 |} I) as [E|E].
  - vm_compute. reflexivity.
  - vm_compute in E. discriminate.
  - vm_compute in E. discriminate.
Qed.

Section Consistent.

Variable srv : ListServer.
Variable p : pvwaClient.
Variable n0 : nat.
Hypothesis Hsrv : pages_consistent srv n0.

Lemma loop_length_invariant fuel qp : ∀ (k : nat) offset all w res exit,
  Heap.valid (heap w) qp →
  length (requests w) = (n0 + k)%nat →
  len (Recordings all) = maxResultsPerPage * Z.of_nat k →
  (GetRecordings_loop srv p fuel qp offset all w).1 = Returned (Ok (res, exit)) →
  len (Recordings res) = Total res ∨ exit = SafetyCheck.
Proof.
  induction fuel as [|fuel IH]; intros k offset all w res exit Hv Hn Hall Hret; [done|].
  rewrite loop_step in Hret by done. rewrite Hn in Hret.
  destruct (srv _ _) as [err|status decoded] eqn:Hreply; cbn [after_reply] in Hret; [done|].
  destruct (Hsrv _ _ _ _ Hreply) as (Hs & Hle & Hshort).
  rewrite Hs in Hret.
  destruct (_ <? _) eqn:Hlt.
  - cbn [fst] in Hret. injection Hret as <- <-. left. cbn [Recordings Total].
    apply Z.ltb_lt in Hlt. rewrite (Hshort Hlt).
    unfold len in *. rewrite length_app. lia.
  - destruct (_ >=? _).
    + cbn [fst] in Hret. injection Hret as <- <-. by right.
    + apply (IH (S k) _ _ _ res exit) in Hret; [done| | |].
      * by apply after_request_valid.
      * rewrite after_request_length. lia.
      * cbn [Recordings]. apply Z.ltb_ge in Hlt.
        unfold len in *. rewrite length_app. unfold maxResultsPerPage in *. lia.
Qed.

End Consistent.

(** C8, amended. Against a server that, for this call, answers with a
    success status and at most 1000 records a page, and whose page of
    fewer than 1000 records reports as [Total] the number of records
    delivered up to and including it, a result [GetRecordings] returns
    has as many records as its [Total] says, or the loop was left through
    the check [offset >= Total]. *)
Theorem GetRecordings_length_is_Total (srv : ListServer) (p : pvwaClient)
    (fuel : nat) (queryParams : Heap.mapref) (w : World) (res : SessionRecordings) :
  Heap.valid (heap w) queryParams →
  pages_consistent srv (length (requests w)) →
  (GetRecordings srv p fuel queryParams w).1 = Returned (Ok res) →
  len (Recordings res) = Total res
  ∨ (GetRecordings_loop srv p fuel queryParams 0
       {| Recordings := []; Total := 0 |} w).1
    = Returned (Ok (res, SafetyCheck)).
Proof.
  intros Hv Hsrv Hret. unfold GetRecordings in Hret.
  destruct (GetRecordings_loop srv p fuel queryParams 0
              {| Recordings := []; Total := 0 |} w) as [r w'] eqn:E.
  destruct r as [[[s exit]|e]|]; cbn in Hret; try discriminate.
  injection Hret as ->.
  destruct (loop_length_invariant srv p _ Hsrv fuel queryParams 0%nat 0
              {| Recordings := []; Total := 0 |} w res exit) as [H|H]; try done.
  - by rewrite E.
  - by left.
  - right. by rewrite H.
Qed.

Lemma three_page_server_consistent : pages_consistent three_page_server 0.
Proof.
  intros k rq status decoded H. cbn [Nat.add] in H.
  destruct k as [|[|[|k]]]; injection H as <- <-;
    (split; [reflexivity|]); cbn [Recordings Total];
    (split; [by vm_compute|]); vm_compute; try reflexivity; discriminate.
Qed.

(** C8, amended, at the three-page server: 2400 records, [Total] 2400. *)
Lemma GetRecordings_length_is_Total_witness :
  len (Recordings {| Recordings := page1 ++ page2 ++ page3; Total := 2400 |})
  = Total {| Recordings := page1 ++ page2 ++ page3; Total := 2400 |}
  ∨ (GetRecordings_loop three_page_server some_client 3 Heap.nilmap 0
       {| Recordings := []; Total := 0 |} empty_world).1
    = Returned (Ok ({| Recordings := page1 ++ page2 ++ page3; Total := 2400 |},
                    SafetyCheck)).
Proof.
  apply (GetRecordings_length_is_Total three_page_server some_client 3
           Heap.nilmap empty_world).
  - exact I.
  - exact three_page_server_consistent.
  - vm_compute. reflexivity.
Defined.

(** ** The copy loop of [DownloadRecordings] *)

Lemma len_new_buffer : len new_buffer = 32 * 1024.
Proof. unfold len, new_buffer. rewrite length_replicate. lia. Qed.

Lemma Body_Read_cons data err (s : Stream) buffer :
  len data <= len buffer →
  Body_Read ((data, err) :: s) buffer
  = (data ++ drop (length data) buffer, len data, err, s).
Proof.
  intros H. unfold Body_Read. rewrite take_ge; [done|]. unfold len in H. lia.
Qed.

Lemma len_refill (data buffer : list byte) :
  len data <= len buffer → len (data ++ drop (length data) buffer) = len buffer.
Proof. unfold len. rewrite length_app, length_drop. lia. Qed.

Lemma take_refill (data buffer : list byte) :
  take (Z.to_nat (len data)) (data ++ drop (length data) buffer) = data.
Proof. unfold len. rewrite Nat2Z.id, take_app_length. done. Qed.

Section CopyFacts.

Variable disk : Disk.
Variable sid path : string.

Lemma File_Write_accepted chunk st :
  write_err disk path (len (file_content st path)) (len chunk) = None →
  File_Write disk path chunk st
  = (None, emit (EvWrite path (len chunk))
             {| files := <[path := file_content st path ++ chunk]> (files st);
                events := events st; deferred := deferred st |}).
Proof. intros H. unfold File_Write. fold (file_content st path). by rewrite H. Qed.

Lemma copy_loop_accepting (s : Stream) : ∀ k buffer total st,
  disk_accepts disk path → reads_fit s → len buffer = 32 * 1024 →
  Int.in_i64 total →
  (copy_loop disk (S (length s) + k) sid path s buffer total st).1
    = copy_outcome total s
  ∧ file_content (copy_loop disk (S (length s) + k) sid path s buffer total st).2 path
    = file_content st path ++ stream_body s.
Proof.
  induction s as [|[data err] s IH]; intros k buffer total st Hdisk Hfit Hbuf Htot.
  - cbn. unfold copy_outcome. cbn. rewrite Z.add_0_r, i64_small by done.
    by rewrite app_nil_r.
  - apply Forall_cons in Hfit as [Hdata Hfit]. cbn [fst] in Hdata.
    cbn [length Nat.add]. specialize (IH k). cbn [Nat.add] in IH.
    remember (S (length s + k)) as f eqn:Hf0. clear Hf0. cbn [copy_loop].
    rewrite Body_Read_cons by lia.
    destruct (len data >? 0) eqn:Hn.
    + rewrite take_refill, File_Write_accepted by apply Hdisk. cbv beta iota zeta.
      destruct err as [| |e].
      * destruct (IH (data ++ drop (length data) buffer) (Int.i64 (total + len data))
          (emit (EvProgress sid (Int.i64 (total + len data)))
             (emit (EvWrite path (len data))
                {| files := <[path := file_content st path ++ data]> (files st);
                   events := events st; deferred := deferred st |})))
          as [Hr Hf]; try done.
        { rewrite len_refill; lia. }
        { apply i64_range. }
        rewrite Hr, Hf. split.
        -- unfold copy_outcome. cbn [stream_end stream_body].
           assert (Hlen : total + len data + len (stream_body s)
                          = total + len (data ++ stream_body s)).
           { unfold len. rewrite length_app. lia. }
           destruct (stream_end s); rewrite ?i64_add_l, ?Hlen; done.
        -- unfold file_content at 1. cbn [files emit].
           rewrite lookup_insert_eq. cbn. by rewrite app_assoc.
      * cbn. split; [done|]. unfold file_content at 1. cbn.
        by rewrite lookup_insert_eq.
      * cbn. split; [done|]. unfold file_content at 1. cbn.
        by rewrite lookup_insert_eq.
    + assert (data = []) as ->.
      { rewrite Z.gtb_ltb in Hn. apply Z.ltb_ge in Hn. unfold len in Hn.
        destruct data; [done|]. cbn [length] in Hn. lia. }
      cbv beta iota zeta.
      destruct err as [| |e].
      * by apply IH.
      * cbn. unfold copy_outcome. cbn.
        rewrite Z.add_0_r, i64_small, app_nil_r by done. done.
      * cbn. by rewrite app_nil_r.
Qed.

End CopyFacts.

Section CopyRefused.
Variable disk : Disk.
Variable sid path : string.
Variables (data : list byte) (err : ReadErr) (rest : Stream) (e : error).
Hypothesis Hdata : 0 < len data.
Hypothesis Hdata_fits : len data <= 32 * 1024.


End CopyRefused.


Lemma chunky_stream_fits : reads_fit chunky_stream.
Proof. repeat constructor; by vm_compute. Qed.

Lemma quiet_disk_accepts path : disk_accepts quiet_disk path.
Proof. intros offset n. reflexivity. Qed.



(** The 100,000 bytes of that body reach the file, and the loop breaks
    with the count 100,000. *)
Lemma chunky_stream_copied :
  len (stream_body chunky_stream) = 100000
  ∧ (copy_loop quiet_disk 6 "a" "out/a.avi" chunky_stream new_buffer 0
       fresh_state).1 = Returned (Ok 100000)
  ∧ file_content
      (copy_loop quiet_disk 6 "a" "out/a.avi" chunky_stream new_buffer 0
         fresh_state).2 "out/a.avi"
    = stream_body chunky_stream.
Proof.
  assert (Hlen : len (stream_body chunky_stream) = 100000).
  { unfold chunky_stream. cbn [stream_body]. unfold len.
    rewrite !length_app, !length_replicate. cbn [length]. lia. }
  split; [done|].
  destruct (copy_loop_accepting quiet_disk "a" "out/a.avi" chunky_stream 0
              new_buffer 0 fresh_state) as [Hr Hf].
  - apply quiet_disk_accepts.
  - exact chunky_stream_fits.
  - apply len_new_buffer.
  - by vm_compute.
  - change 6%nat with (S (length chunky_stream) + 0)%nat. split.
    + rewrite Hr. unfold copy_outcome.
      replace (stream_end chunky_stream) with rEOF by reflexivity.
      by rewrite Z.add_0_l, Hlen.
    + rewrite Hf. reflexivity.
Qed.

(** ** Resources of [DownloadRecordings] *)

(** C7 does not hold of the code.  The two [Close] calls are deferred,
    so they run when [DownloadRecordings] returns, not when an iteration
    ends: with two recordings the file and the stream of the first are
    still open while the second is downloaded, and all four are closed at
    the end, last opened first.  And the status check returns before the
    stream's [Close] is deferred: on a 500 the stream is never closed. *)
Theorem DownloadRecordings_closes_at_return :
  events (DownloadRecordings quiet_disk play_ok join_slash some_client 5
            "out" two_recordings fresh_state).2
  = [EvMkdirAll "out";
     EvOpenFile "out/a.avi"; EvOpenBody "a";
     EvWrite "out/a.avi" 2; EvProgress "a" 2;
     EvWrite "out/a.avi" 1; EvProgress "a" 3;
     EvOpenFile "out/b.avi"; EvOpenBody "b";
     EvWrite "out/b.avi" 2; EvProgress "b" 2;
     EvWrite "out/b.avi" 1; EvProgress "b" 3;
     EvCloseBody "b"; EvCloseFile "out/b.avi";
     EvCloseBody "a"; EvCloseFile "out/a.avi"]
  ∧ DownloadRecordings quiet_disk play_500 join_slash some_client 5
      "out" one_recording fresh_state
    = (Returned (Some "unexpected status code: 500"%string),
       {| files := {[ "out/a.avi"%string := [] ]};
          events := [EvMkdirAll "out"; EvOpenFile "out/a.avi"; EvOpenBody "a";
                     EvCloseFile "out/a.avi"];
          deferred := [] |}).
Proof. split; by vm_compute. Qed.

(** ** The driver *)

(** C3 does not hold of the code.  [main] drops what [SaveToJSON] and
    [DownloadRecordings] return: when both fail for every month, the
    driver still calls the download after the failed export, goes on to
    the next month, and ends with status 0. *)
Theorem main_ignores_export_and_download_errors (Join : list string → string) :
  main listing_ok export_fails download_fails Join [5; 6] None tt
  = (0,
     [CallGetRecordingsByMonth 5;
      CallSaveToJSON (Join ["."; "downloaded_recordings/"; "5/"]%string);
      CallDownloadRecordings (Join ["."; "downloaded_recordings/"; "5/"]%string);
      CallGetRecordingsByMonth 6;
      CallSaveToJSON (Join ["."; "downloaded_recordings/"; "6/"]%string);
      CallDownloadRecordings (Join ["."; "downloaded_recordings/"; "6/"]%string)],
     tt).
Proof. reflexivity. Qed.

(** Whatever the export and the download return, a run whose listings
    all succeed ends with status 0. *)
Lemma main_months_exit_0 {S : Type}
    (get : Z → S → Result SessionRecordings * S)
    (save download : string → SessionRecordings → S → option error * S)
    (Join : list string → string) (months : list Z) :
  (∀ m st, ∃ sessions st', get m st = (Ok sessions, st')) →
  ∀ st log, (main_months get save download Join months st log).1.1 = 0.
Proof.
  intros Hget. induction months as [|m months IH]; intros st log; [done|].
  cbn [main_months]. destruct (Hget m st) as (sessions & st1 & ->).
  destruct (save _ sessions st1) as [e1 st2].
  destruct (download _ sessions st2) as [e2 st3]. apply IH.
Qed.

(** ** [GetAuthToken] *)

(** C6 does not hold of the code.  [GetAuthToken] looks at the error of
    the request only, never at the status of the response: a logon the
    server refuses with status 403 returns no error, and the body of the
    refusal is stored as the token. *)
Theorem GetAuthToken_accepts_refused_logon :
  GetAuthToken rejecting_logon some_client "secret"
  = (None,
     {| BaseURL := "https://pvwa.example.com"; Username := "auditor";
        AuthToken := "Forbidden" |}).
Proof. reflexivity. Qed.

(** A transport failure is returned, and the client keeps its token. *)
Lemma GetAuthToken_transport_failure (logon : Request → LogonReply)
    (p : pvwaClient) (password : string) (err : error) :
  logon (logon_request p password) = LogonError err →
  GetAuthToken logon p password
  = (Some (Errorf "error obtaining authorization token" err), p).
Proof. intros H. unfold GetAuthToken. by rewrite H. Qed.

(** Any response, whatever its status, stores its body without the
    enclosing quotes. *)
Lemma GetAuthToken_any_response (logon : Request → LogonReply)
    (p : pvwaClient) (password : string) (status : Z) (body : string) :
  logon (logon_request p password) = LogonResponse status body →
  GetAuthToken logon p password
  = (None, {| BaseURL := BaseURL p; Username := Username p;
              AuthToken := Trim body dq |}).
Proof. intros H. unfold GetAuthToken. by rewrite H. Qed.

Lemma GetAuthToken_strips_quotes :
  AuthToken (GetAuthToken accepting_logon some_client "secret").2 = "c2Vzc2lvbg=="%string.
Proof. reflexivity. Qed.

(** ** The time bounds of [GetRecordingsByMonth] *)

(** The model of package [time] agrees with the calendar. *)
Lemma time_Date_examples :
  time.Unix (time.Date 1970 1 1 0 0 0 0) = 0
  ∧ time.Unix (time.Date 2000 3 1 0 0 0 0) = 951868800
  ∧ time.Unix (time.Date 2024 1 1 0 0 0 0) = 1704067200
  ∧ time.Time_Date (time.Date 2024 2 29 0 0 0 0) = (2024, 2, 29)
  ∧ time.Time_Date (time.Date 2024 2 31 0 0 0 0) = (2024, 3, 2)
  ∧ time.Time_Date (time.Date 2024 13 1 0 0 0 0) = (2025, 1, 1)
  ∧ time.Time_Clock (time.Date 2024 6 15 13 14 15 0) = (13, 14, 15).
Proof. repeat split; by vm_compute. Qed.

(** [month_from] takes day 0 of the month, which is the last day of the
    month before; [AddDate] then adds a month to that day, and a day the
    next month does not have rolls over into the month after. *)
Lemma month_bounds_2024 :
  (λ m, (time.Time_Date (month_from m),
         time.Time_Date (time.AddDate (month_from m) 0 1 0))) <$> seqZ 1 12
  = [((2023, 12, 31), (2024, 1, 31)); ((2024, 1, 31), (2024, 3, 2));
     ((2024, 2, 29), (2024, 3, 29)); ((2024, 3, 31), (2024, 5, 1));
     ((2024, 4, 30), (2024, 5, 30)); ((2024, 5, 31), (2024, 7, 1));
     ((2024, 6, 30), (2024, 7, 30)); ((2024, 7, 31), (2024, 8, 31));
     ((2024, 8, 31), (2024, 10, 1)); ((2024, 9, 30), (2024, 10, 30));
     ((2024, 10, 31), (2024, 12, 1)); ((2024, 11, 30), (2024, 12, 30))].
Proof. by vm_compute. Qed.

(** C1 does not hold of the code.  The query for February ends at
    1709337599 (March 1, 23:59:59) and the query for March starts at
    1709164800 (February 29, 00:00:00): the two overlap by two days.
    Of the eleven pairs of consecutive months only January/February and
    August/September are contiguous. *)
Theorem february_query_overlaps_march :
  time.Unix (month_to 2) = 1709337599
  ∧ time.Unix (month_from 3) = 1709164800
  ∧ time.Unix (month_to 2) ≠ time.Unix (month_from 3) - 1
  ∧ filter (λ m, time.Unix (month_to m) = time.Unix (month_from (m + 1)) - 1)
      (seqZ 1 11)
    = [1; 8].
Proof. repeat split; by vm_compute. Qed.

(** C2 does not hold of the code.  For January the request carries
    [fromtime] 1703980800, which is December 31, 2023, not the start of
    January 2024 (1704067200), and [totime] 1706659199, which is January
    30, 23:59:59, not one second before the start of February
    (1706745599).  For every month [fromtime] is one day before the start
    of the month. *)
Theorem january_query_starts_in_december :
  (λ rq, (rq_query rq !! "fromtime"%string, rq_query rq !! "totime"%string))
    <$> requests (GetRecordingsByMonth empty_server some_client 1 1 empty_world).2
  = [(Some "1703980800"%string, Some "1706659199"%string)]
  ∧ time.Unix (month_from 1) = 1703980800
  ∧ time.Time_Date (month_from 1) = (2023, 12, 31)
  ∧ time.Unix (time.Date 2024 1 1 0 0 0 0) = 1704067200
  ∧ time.Unix (month_to 1) = 1706659199
  ∧ time.Unix (time.Date 2024 2 1 0 0 0 0) - 1 = 1706745599
  ∧ Forall (λ m, time.Unix (month_from m)
                 = time.Unix (time.Date 2024 m 1 0 0 0 0) - 86400)
      (seqZ 1 12).
Proof.
  repeat (split; [by vm_compute|]).
  change (seqZ 1 12) with [1; 2; 3; 4; 5; 6; 7; 8; 9; 10; 11; 12].
  repeat (apply Forall_cons; split; [by vm_compute|]). constructor.
Qed.

(** * Further properties *)

(** ** More on the pagination loop *)

Lemma page_offset_S i :
  Int.i64 (page_offset i + maxResultsPerPage) = page_offset (S i).
Proof.
  unfold page_offset. rewrite i64_add_l. f_equal.
  unfold maxResultsPerPage. lia.
Qed.

Section Trace.
Variable srv : ListServer.
Variable p : pvwaClient.
Variable w0 : World.
Variable qp : Heap.mapref.

Lemma loop_trace fuel : ∀ (i : nat) all w,
  Heap.valid (heap w) qp →
  Heap.contents (heap w) qp = Heap.contents (heap w0) qp →
  length (requests w) = (length (requests w0) + i)%nat →
  ∃ n : nat,
    (n <= fuel)%nat ∧ (0 < fuel → 0 < n)%nat
    ∧ requests (GetRecordings_loop srv p fuel qp (page_offset i) all w).2
      = requests w ++ ((λ j, page_request p (heap w0) qp (page_offset j)) <$> seq i n)
    ∧ (∀ res exit,
         (GetRecordings_loop srv p fuel qp (page_offset i) all w).1
           = Returned (Ok (res, exit)) →
         Recordings res
         = Recordings all
           ++ mjoin ((λ j, Recordings (effective_page (nth_reply srv p w0 qp j)))
                       <$> seq i n)
         ∧ Total res = Total (effective_page (nth_reply srv p w0 qp (i + n - 1))))
    ∧ (∀ msg,
         (GetRecordings_loop srv p fuel qp (page_offset i) all w).1
           = Returned (Err msg) →
         ∃ err, nth_reply srv p w0 qp (i + n - 1) = ListError err
                ∧ msg = Errorf ("could not retrieve recordings at offset "
                                +:+ Sprintf_d (page_offset (i + n - 1))) err).
Proof.
  induction fuel as [|fuel IH]; intros i all w Hv Hc Hn.
  { exists 0%nat. cbn. rewrite app_nil_r. repeat split; try done; lia. }
  rewrite loop_step by done.
  assert (Hrq : page_request p (heap w) qp (page_offset i)
                = page_request p (heap w0) qp (page_offset i)).
  { unfold page_request. by rewrite Hc. }
  assert (Hrep : srv (length (requests w)) (page_request p (heap w) qp (page_offset i))
                 = nth_reply srv p w0 qp i).
  { unfold nth_reply. by rewrite Hn, Hrq. }
  rewrite Hrep.
  assert (Hi : (i + 1 - 1 = i)%nat) by lia.
  destruct (nth_reply srv p w0 qp i) as [err|status decoded] eqn:Hreply;
    cbn [after_reply].
  { exists 1%nat. cbn [fst snd after_request requests fmap list_fmap seq].
    rewrite Hrq, Hi. split; [lia|]. split; [lia|]. split; [done|]. split.
    - intros res exit [=].
    - intros msg [= <-]. by exists err. }
  set (pg := if IsSuccess status then decoded else SessionRecordings_zero).
  assert (Hpg : effective_page (ListResponse status decoded) = pg) by done.
  destruct (_ <? _).
  { exists 1%nat. cbn [fst snd after_request requests fmap list_fmap seq mjoin list_join].
    rewrite Hrq, Hi, Hreply, Hpg, app_nil_r.
    split; [lia|]. split; [lia|]. split; [done|]. split.
    - by intros res exit [= <- <-].
    - intros msg [=]. }
  rewrite page_offset_S.
  destruct (_ >=? _).
  { exists 1%nat. cbn [fst snd after_request requests fmap list_fmap seq mjoin list_join].
    rewrite Hrq, Hi, Hreply, Hpg, app_nil_r.
    split; [lia|]. split; [lia|]. split; [done|]. split.
    - by intros res exit [= <- <-].
    - intros msg [=]. }
  destruct (IH (S i) {| Recordings := Recordings all ++ Recordings pg; Total := Total pg |}
              (after_request p w qp (page_offset i)))
    as (n & Hle & Hpos & Hreqs & Hok & Herr).
  { by apply after_request_valid. }
  { cbn [after_request heap]. by rewrite contents_insert_fresh. }
  { rewrite after_request_length. lia. }
  exists (S n). split; [lia|]. split; [lia|].
  assert (Hidx : (i + S n - 1 = S i + n - 1 ∨ n = 0)%nat) by lia.
  split; [|split].
  - rewrite Hreqs. cbn [after_request requests seq fmap list_fmap].
    by rewrite <- app_assoc, Hrq.
  - intros res exit Hres. destruct (Hok res exit Hres) as [Hrec Htot].
    cbn [Recordings] in Hrec. cbn [seq fmap list_fmap mjoin list_join].
    rewrite Hreply, Hpg.
    destruct n as [|n].
    + destruct fuel; [done|]. lia.
    + split; [by rewrite Hrec, <- app_assoc|].
      rewrite Htot. do 3 f_equal. lia.
  - intros msg Hmsg. destruct (Herr msg Hmsg) as (err & He & ->).
    destruct n as [|n].
    + destruct fuel; [done|]. lia.
    + exists err. replace (i + S (S n) - 1)%nat with (S i + S n - 1)%nat by lia. done.
Qed.
End Trace.

(** X1. A result [GetRecordings] returns is made of the pages it was sent:
    its records are those of the replies to the requests of the call, in
    order, nothing added and nothing dropped, and its [Total] is the one of
    the last reply. *)
Theorem GetRecordings_concatenates_pages (srv : ListServer) (p : pvwaClient)
    (fuel : nat) (queryParams : Heap.mapref) (w : World) (res : SessionRecordings) :
  Heap.valid (heap w) queryParams →
  (GetRecordings srv p fuel queryParams w).1 = Returned (Ok res) →
  ∃ n : nat,
    (0 < n <= fuel)%nat
    ∧ Recordings res
      = mjoin ((λ j, Recordings (effective_page (nth_reply srv p w queryParams j)))
                 <$> seq 0 n)
    ∧ Total res = Total (effective_page (nth_reply srv p w queryParams (n - 1)))
    ∧ length (requests (GetRecordings srv p fuel queryParams w).2)
      = (length (requests w) + n)%nat.
Proof.
  intros Hv Hres. unfold GetRecordings in *.
  assert (Hf : (0 < fuel)%nat) by (destruct fuel; [by cbn in Hres|lia]).
  destruct (loop_trace srv p w queryParams fuel 0%nat
              {| Recordings := []; Total := 0 |} w Hv eq_refl)
    as (n & Hle & Hpos & Hreqs & Hok & _); [lia|].
  change (page_offset 0) with 0 in *.
  destruct (GetRecordings_loop srv p fuel queryParams 0 _ w) as [r w'].
  cbn [fst snd] in *.
  destruct r as [[[s exit]|e]|]; try discriminate. injection Hres as ->.
  destruct (Hok res exit eq_refl) as [Hrec Htot].
  exists n. split.
  - split; [by apply Hpos|done].
  - split; [done|]. split; [done|].
    rewrite Hreqs, length_app, length_fmap, length_seq. done.
Qed.

Lemma three_page_server_result :
  (GetRecordings three_page_server some_client 3 Heap.nilmap empty_world).1
  = Returned (Ok {| Recordings := page1 ++ page2 ++ page3; Total := 2400 |}).
Proof. reflexivity. Qed.

(** X1 at the three-page server: the 2400 records returned are the three
    pages it sent, in order, and [Total] is the one of the third. *)
Lemma GetRecordings_concatenates_pages_witness :
  ∃ n : nat,
    (0 < n <= 3)%nat
    ∧ Recordings {| Recordings := page1 ++ page2 ++ page3; Total := 2400 |}
      = mjoin ((λ j, Recordings (effective_page
                       (nth_reply three_page_server some_client empty_world
                          Heap.nilmap j)))
                 <$> seq 0 n)
    ∧ Total {| Recordings := page1 ++ page2 ++ page3; Total := 2400 |}
      = Total (effective_page
                 (nth_reply three_page_server some_client empty_world
                    Heap.nilmap (n - 1)))
    ∧ length (requests (GetRecordings three_page_server some_client 3
                          Heap.nilmap empty_world).2)
      = (length (requests empty_world) + n)%nat.
Proof.
  apply (GetRecordings_concatenates_pages three_page_server some_client 3
           Heap.nilmap empty_world).
  - exact I.
  - exact three_page_server_result.
Defined.

(** X2. [GetRecordings] returns an error only when the reply to its last
    request is an error, and the message then names the offset of that
    request and wraps the error of the reply; no record of the earlier
    pages is returned with it. *)
Theorem GetRecordings_error_names_offset (srv : ListServer) (p : pvwaClient)
    (fuel : nat) (queryParams : Heap.mapref) (w : World) (msg : error) :
  Heap.valid (heap w) queryParams →
  (GetRecordings srv p fuel queryParams w).1 = Returned (Err msg) →
  ∃ (n : nat) (err : error),
    (0 < n <= fuel)%nat
    ∧ nth_reply srv p w queryParams (n - 1) = ListError err
    ∧ msg = Errorf ("could not retrieve recordings at offset "
                    +:+ Sprintf_d (page_offset (n - 1))) err
    ∧ length (requests (GetRecordings srv p fuel queryParams w).2)
      = (length (requests w) + n)%nat.
Proof.
  intros Hv Hres. unfold GetRecordings in *.
  assert (Hf : (0 < fuel)%nat) by (destruct fuel; [by cbn in Hres|lia]).
  destruct (loop_trace srv p w queryParams fuel 0%nat
              {| Recordings := []; Total := 0 |} w Hv eq_refl)
    as (n & Hle & Hpos & Hreqs & _ & Herr); [lia|].
  change (page_offset 0) with 0 in *.
  destruct (GetRecordings_loop srv p fuel queryParams 0 _ w) as [r w'].
  cbn [fst snd] in *.
  destruct r as [[[s exit]|e]|]; try discriminate. injection Hres as ->.
  destruct (Herr msg eq_refl) as (err & He & Hmsg).
  exists n, err. split.
  - split; [by apply Hpos|done].
  - split; [done|]. split; [done|].
    rewrite Hreqs, length_app, length_fmap, length_seq. done.
Qed.

Lemma failing_server_result :
  (GetRecordings failing_server some_client 1 Heap.nilmap empty_world).1
  = Returned (Err "could not retrieve recordings at offset 0: timeout").
Proof. by vm_compute. Qed.

(** X2 at the server that fails every request. *)
Lemma GetRecordings_error_names_offset_witness :
  ∃ (n : nat) (err : error),
    (0 < n <= 1)%nat
    ∧ nth_reply failing_server some_client empty_world Heap.nilmap (n - 1)
      = ListError err
    ∧ "could not retrieve recordings at offset 0: timeout"%string
      = Errorf ("could not retrieve recordings at offset "
                +:+ Sprintf_d (page_offset (n - 1))) err
    ∧ length (requests (GetRecordings failing_server some_client 1
                          Heap.nilmap empty_world).2)
      = (length (requests empty_world) + n)%nat.
Proof.
  apply (GetRecordings_error_names_offset failing_server some_client 1
           Heap.nilmap empty_world).
  - exact I.
  - exact failing_server_result.
Defined.

(** X3. The requests of a call ask for the offsets 0, 1000, 2000, ... in
    this order (the [j]-th one for [1000 * j], as an [int]), each with the
    caller's other pairs, whatever the server answers and however the call
    ends. *)
Theorem GetRecordings_requests_in_steps_of_1000 (srv : ListServer) (p : pvwaClient)
    (fuel : nat) (queryParams : Heap.mapref) (w : World) :
  Heap.valid (heap w) queryParams →
  ∃ n : nat,
    (n <= fuel)%nat
    ∧ requests (GetRecordings srv p fuel queryParams w).2
      = requests w
        ++ ((λ j, listing_request p
                    (<["offset"%string :=
                         Sprintf_d (Int.i64 (maxResultsPerPage * Z.of_nat j))]>
                       (Heap.contents (heap w) queryParams)))
              <$> seq 0 n).
Proof.
  intros Hv. unfold GetRecordings.
  destruct (loop_trace srv p w queryParams fuel 0%nat
              {| Recordings := []; Total := 0 |} w Hv eq_refl)
    as (n & Hle & _ & Hreqs & _); [lia|].
  change (page_offset 0) with 0 in *.
  destruct (GetRecordings_loop srv p fuel queryParams 0 _ w) as [r w'].
  cbn [fst snd] in *. by exists n.
Qed.

(** X3 at the server of the short page, called with the caller's map. *)
Lemma GetRecordings_requests_in_steps_of_1000_witness :
  ∃ n : nat,
    (n <= 5)%nat
    ∧ requests (GetRecordings short_page_server some_client 5
                  (Heap.ref 0%nat) caller_world).2
      = requests caller_world
        ++ ((λ j, listing_request some_client
                    (<["offset"%string :=
                         Sprintf_d (Int.i64 (maxResultsPerPage * Z.of_nat j))]>
                       (Heap.contents (heap caller_world) (Heap.ref 0%nat))))
              <$> seq 0 n).
Proof.
  apply (GetRecordings_requests_in_steps_of_1000 short_page_server some_client 5
           (Heap.ref 0%nat) caller_world).
  exact caller_world_valid.
Defined.

(** X4. When the first page has fewer than 1000 records, an empty page
    with [Total] 0 included, the call ends after this one request and
    returns the page as it is, with the [Total] the server reported. *)
Theorem GetRecordings_short_first_page (srv : ListServer) (p : pvwaClient)
    (fuel : nat) (queryParams : Heap.mapref) (w : World)
    (status : Z) (decoded : SessionRecordings) :
  Heap.valid (heap w) queryParams →
  nth_reply srv p w queryParams 0 = ListResponse status decoded →
  len (Recordings (effective_page (ListResponse status decoded))) < maxResultsPerPage →
  GetRecordings srv p (S fuel) queryParams w
  = (Returned (Ok {| Recordings := Recordings (effective_page (ListResponse status decoded));
                     Total := Total (effective_page (ListResponse status decoded)) |}),
     after_request p w queryParams 0).
Proof.
  intros Hv Hreply Hshort. unfold GetRecordings.
  rewrite loop_step by done.
  unfold nth_reply in Hreply. rewrite Nat.add_0_r in Hreply.
  change (page_offset 0) with 0 in Hreply. rewrite Hreply.
  cbn [after_reply effective_page] in *.
  apply Z.ltb_lt in Hshort. rewrite Hshort. reflexivity.
Qed.

(** X5. The status of a listing response is never looked at: a response
    with a status outside 200..299 is not decoded, so the call ends after
    it with no error, no record and [Total] 0. *)
Theorem GetRecordings_ignores_refused_listing (srv : ListServer) (p : pvwaClient)
    (fuel : nat) (queryParams : Heap.mapref) (w : World)
    (status : Z) (decoded : SessionRecordings) :
  Heap.valid (heap w) queryParams →
  nth_reply srv p w queryParams 0 = ListResponse status decoded →
  IsSuccess status = false →
  (GetRecordings srv p (S fuel) queryParams w).1
  = Returned (Ok {| Recordings := []; Total := 0 |})
  ∧ length (requests (GetRecordings srv p (S fuel) queryParams w).2)
    = S (length (requests w)).
Proof.
  intros Hv Hreply Hs.
  rewrite (GetRecordings_short_first_page srv p fuel queryParams w status decoded Hv Hreply).
  - cbn [effective_page]. rewrite Hs. split; [done|]. apply after_request_length.
  - cbn [effective_page]. by rewrite Hs.
Qed.


(** X4 at the server of the short page. *)
Lemma GetRecordings_short_first_page_witness :
  GetRecordings short_page_server some_client (S 4) Heap.nilmap empty_world
  = (Returned (Ok {| Recordings :=
                       Recordings (effective_page
                         (ListResponse 200 {| Recordings := page3; Total := 2400 |}));
                     Total :=
                       Total (effective_page
                         (ListResponse 200 {| Recordings := page3; Total := 2400 |})) |}),
     after_request some_client empty_world Heap.nilmap 0).
Proof.
  apply (GetRecordings_short_first_page short_page_server some_client 4 Heap.nilmap
           empty_world 200 {| Recordings := page3; Total := 2400 |}).
  - exact I.
  - reflexivity.
  - by vm_compute.
Defined.

(** X5 at a server that answers 401. *)
Lemma GetRecordings_ignores_refused_listing_witness :
  (GetRecordings refusing_server some_client (S 4) Heap.nilmap empty_world).1
  = Returned (Ok {| Recordings := []; Total := 0 |})
  ∧ length (requests (GetRecordings refusing_server some_client (S 4)
                        Heap.nilmap empty_world).2)
    = S (length (requests empty_world)).
Proof.
  apply (GetRecordings_ignores_refused_listing refusing_server some_client 4
           Heap.nilmap empty_world 401 {| Recordings := page3; Total := 2400 |}).
  - exact I.
  - reflexivity.
  - reflexivity.
Defined.

(** ** The queries of [GetRecordingsByMonth] and [GetAllRecordings] *)

Lemma map_literal_spec (entries : list (string * string)) (w : World) :
  map_literal entries w
  = (fresh (dom (heap w)),
     {| heap := <[fresh (dom (heap w)) := foldl (λ m kv, <[kv.1 := kv.2]> m) ∅ entries]>
                  (heap w);
        requests := requests w |}).
Proof.
  unfold map_literal, Heap.make. cbv zeta. f_equal. f_equal.
  rewrite (foldl_store _ _ ∅) by apply lookup_insert_eq.
  by rewrite insert_insert_eq.
Qed.

Lemma five_pairs_eq (o a b : string) :
  <["offset"%string := o]>
    (foldl (λ m kv, <[kv.1 := kv.2]> m) (∅ : gmap string string)
       [("offset", "0"); ("sort", "name"); ("order", "asc");
        ("fromtime", a); ("totime", b)]%string)
  = list_to_map
      [("offset", o); ("sort", "name"); ("order", "asc");
       ("fromtime", a); ("totime", b)]%string.
Proof.
  cbn [foldl list_to_map foldr fst snd].
  apply map_eq. intros k. rewrite !lookup_insert.
  repeat case_decide; subst; try discriminate; reflexivity.
Qed.

Lemma three_pairs_eq (o : string) :
  <["offset"%string := o]>
    (foldl (λ m kv, <[kv.1 := kv.2]> m) (∅ : gmap string string)
       [("offset", "0"); ("sort", "name"); ("order", "asc")]%string)
  = list_to_map [("offset", o); ("sort", "name"); ("order", "asc")]%string.
Proof.
  cbn [foldl list_to_map foldr fst snd].
  apply map_eq. intros k. rewrite !lookup_insert.
  repeat case_decide; subst; try discriminate; reflexivity.
Qed.

Lemma month_query_eq (month offset : Z) :
  <["offset"%string := Sprintf_d offset]>
    (foldl (λ m kv, <[kv.1 := kv.2]> m) ∅ (month_params month))
  = month_query month offset.
Proof. unfold month_query, month_params. apply five_pairs_eq. Qed.

Lemma all_query_eq (offset : Z) :
  <["offset"%string := Sprintf_d offset]>
    (foldl (λ m kv, <[kv.1 := kv.2]> m) ∅
       [("offset", "0"); ("sort", "name"); ("order", "asc")]%string)
  = all_query offset.
Proof. unfold all_query. apply three_pairs_eq. Qed.

(** X6. Every request of [GetRecordingsByMonth] carries exactly five
    pairs: sort by name, ascending order, the two time bounds of the month,
    and the offset of the page. *)
Theorem GetRecordingsByMonth_requests (srv : ListServer) (p : pvwaClient)
    (fuel : nat) (month : Z) (w : World) :
  ∃ n : nat,
    (n <= fuel)%nat
    ∧ requests (GetRecordingsByMonth srv p fuel month w).2
      = requests w
        ++ ((λ j, listing_request p
                    (month_query month (Int.i64 (maxResultsPerPage * Z.of_nat j))))
              <$> seq 0 n).
Proof.
  unfold GetRecordingsByMonth. rewrite map_literal_spec.
  set (l := fresh (dom (heap w))).
  set (w1 := {| heap := _; requests := requests w |}).
  destruct (GetRecordings_requests_in_steps_of_1000 srv p fuel (Heap.ref l) w1)
    as (n & Hn & Hreq).
  { cbn [Heap.valid w1 heap]. apply elem_of_dom. eexists. apply lookup_insert_eq. }
  exists n. split; [done|]. rewrite Hreq. cbn [w1 requests]. f_equal.
  apply list_fmap_ext. intros _ j _. f_equal.
  cbn [Heap.contents w1 heap]. rewrite lookup_insert_eq. cbn [default].
  apply month_query_eq.
Qed.

(** X7. Every request of [GetAllRecordings] carries exactly three pairs,
    sort by name, ascending order and the offset of the page, and the
    offsets advance by 1000: the function pages through the results like
    any other listing. *)
Theorem GetAllRecordings_requests (srv : ListServer) (p : pvwaClient)
    (fuel : nat) (w : World) :
  ∃ n : nat,
    (n <= fuel)%nat
    ∧ requests (GetAllRecordings srv p fuel w).2
      = requests w
        ++ ((λ j, listing_request p
                    (all_query (Int.i64 (maxResultsPerPage * Z.of_nat j))))
              <$> seq 0 n).
Proof.
  unfold GetAllRecordings. rewrite map_literal_spec.
  set (l := fresh (dom (heap w))).
  set (w1 := {| heap := _; requests := requests w |}).
  destruct (GetRecordings_requests_in_steps_of_1000 srv p fuel (Heap.ref l) w1)
    as (n & Hn & Hreq).
  { cbn [Heap.valid w1 heap]. apply elem_of_dom. eexists. apply lookup_insert_eq. }
  exists n. split; [done|].
  assert (Hw : requests (GetRecordings srv p fuel (Heap.ref l) w1).2
               = requests
                   (match GetRecordings srv p fuel (Heap.ref l) w1 with
                    | (Returned (Err err), w) =>
                      (Returned (Err (Errorf "Could not get all recordings" err)), w)
                    | rw => rw
                    end).2).
  { by destruct (GetRecordings srv p fuel (Heap.ref l) w1) as [[[?|?]|] ?]. }
  rewrite <- Hw, Hreq. cbn [w1 requests]. f_equal.
  apply list_fmap_ext. intros _ j _. f_equal.
  cbn [Heap.contents w1 heap]. rewrite lookup_insert_eq. cbn [default].
  apply all_query_eq.
Qed.


(** ** [GetAuthToken] and [NewPVWAConfig] *)

Lemma TrimLeft_first s cutset c :
  first_char (TrimLeft s cutset) = Some c → in_cutset c cutset = false.
Proof.
  induction s as [|a s IH]; cbn; [done|].
  destruct (in_cutset a cutset) eqn:Ha; [done|]. cbn. by intros [= <-].
Qed.

Lemma TrimRight_empty_or_first s cutset :
  TrimRight s cutset = EmptyString ∨ first_char (TrimRight s cutset) = first_char s.
Proof.
  destruct s as [|a s]; cbn; [by left|].
  destruct (TrimRight s cutset); [|by right].
  destruct (in_cutset a cutset); [by left|by right].
Qed.

Lemma TrimRight_last s cutset c :
  last_char (TrimRight s cutset) = Some c → in_cutset c cutset = false.
Proof.
  induction s as [|a s IH]; cbn; [done|].
  destruct (TrimRight s cutset) as [|b t] eqn:Ht.
  - destruct (in_cutset a cutset) eqn:Ha; [done|]. cbn. by intros [= <-].
  - cbn in *. done.
Qed.

(** What [strings.Trim] returns neither starts nor ends with a character
    of the cutset. *)
Lemma Trim_ends s cutset :
  (∀ c, first_char (Trim s cutset) = Some c → in_cutset c cutset = false)
  ∧ (∀ c, last_char (Trim s cutset) = Some c → in_cutset c cutset = false).
Proof.
  unfold Trim. split; intros c Hc; [|by apply (TrimRight_last _ _ _ Hc)].
  destruct (TrimRight_empty_or_first (TrimLeft s cutset) cutset) as [E|E].
  - by rewrite E in Hc.
  - rewrite E in Hc. by apply (TrimLeft_first _ _ _ Hc).
Qed.

Lemma TrimRight_id s cutset :
  (∀ c, last_char s = Some c → in_cutset c cutset = false) →
  TrimRight s cutset = s.
Proof.
  induction s as [|a s IH]; intros Hlast; cbn; [done|].
  destruct s as [|b s].
  - cbn. by rewrite (Hlast a eq_refl).
  - rewrite IH by (intros c Hc; by apply Hlast). done.
Qed.

Lemma TrimRight_app_cut s cutset c :
  in_cutset c cutset = true →
  TrimRight (s +:+ String c EmptyString) cutset = TrimRight s cutset.
Proof.
  intros Hc. induction s as [|a s IH].
  - change (EmptyString +:+ String c EmptyString)%string with (String c EmptyString).
    cbn [TrimRight]. by rewrite Hc.
  - change (String a s +:+ String c EmptyString)%string
      with (String a (s +:+ String c EmptyString)).
    cbn [TrimRight]. by rewrite IH.
Qed.

(** Quotes around a token that neither starts nor ends with a quote are
    exactly what [strings.Trim] removes. *)
Lemma Trim_quoted token :
  first_char token ≠ Some quote → last_char token ≠ Some quote →
  Trim (dq +:+ token +:+ dq) dq = token.
Proof.
  intros Hfirst Hlast.
  assert (Hin : ∀ c, c ≠ quote → in_cutset c dq = false).
  { intros c Hc. cbn. rewrite orb_false_r. by apply Ascii.eqb_neq. }
  destruct token as [|a token]; [done|].
  assert (Ha : in_cutset a dq = false).
  { apply Hin. intros ->. by apply Hfirst. }
  unfold Trim. change (dq +:+ String a token +:+ dq)%string
    with (String quote (String a (token +:+ dq))).
  cbn [TrimLeft]. change (in_cutset quote dq) with true. cbv iota. rewrite Ha.
  change (String a (token +:+ dq)) with (String a token +:+ String quote EmptyString)%string.
  rewrite TrimRight_app_cut by done.
  apply TrimRight_id. intros c Hc. apply Hin. intros ->. by apply Hlast.
Qed.

(** X8. When [GetAuthToken] returns no error it has received a response,
    the token it stores is the body of that response trimmed of quotes, so
    it neither starts nor ends with a quote, and the base URL and the user
    name of the client are unchanged. *)
Theorem GetAuthToken_token_has_no_enclosing_quotes (logon : Request → LogonReply)
    (p p' : pvwaClient) (password : string) :
  GetAuthToken logon p password = (None, p') →
  first_char (AuthToken p') ≠ Some quote
  ∧ last_char (AuthToken p') ≠ Some quote
  ∧ BaseURL p' = BaseURL p ∧ Username p' = Username p
  ∧ ∃ status body,
      logon (logon_request p password) = LogonResponse status body
      ∧ AuthToken p' = Trim body dq.
Proof.
  unfold GetAuthToken.
  destruct (logon (logon_request p password)) as [err|status body]; [done|].
  intros [= <-]. cbn [AuthToken BaseURL Username].
  destruct (Trim_ends body dq) as [Hf Hl].
  split; [|split; [|split; [done|split; [done|by exists status, body]]]].
  - intros H. by specialize (Hf _ H).
  - intros H. by specialize (Hl _ H).
Qed.

(** X9. A token that the server returns between quotes is stored as it
    is, without them, provided it neither starts nor ends with a quote
    itself. *)
Theorem GetAuthToken_unquotes_token (logon : Request → LogonReply)
    (p : pvwaClient) (password token : string) (status : Z) :
  logon (logon_request p password) = LogonResponse status (dq +:+ token +:+ dq) →
  first_char token ≠ Some quote → last_char token ≠ Some quote →
  GetAuthToken logon p password
  = (None, {| BaseURL := BaseURL p; Username := Username p; AuthToken := token |}).
Proof.
  intros Hreply Hfirst Hlast. unfold GetAuthToken.
  by rewrite Hreply, Trim_quoted.
Qed.

(** X10. [NewPVWAConfig] gives a client only for a base URL and a user
    name that are not empty, after a logon with a password that is not
    empty: the variable [PVWA_PASSWORD] when it is set, the trimmed
    terminal input otherwise.  The client has this base URL and user name
    and the trimmed body of the logon response as its token. *)
Theorem NewPVWAConfig_client (logon : Request → LogonReply)
    (TrimSpace : string → string) (baseURL username PVWA_PASSWORD : string)
    (ReadPassword : Result string) (client : pvwaClient) :
  NewPVWAConfig logon TrimSpace baseURL username PVWA_PASSWORD ReadPassword
    = Ok client →
  baseURL ≠ EmptyString ∧ username ≠ EmptyString
  ∧ BaseURL client = baseURL ∧ Username client = username
  ∧ ∃ password status body,
      chosen_password TrimSpace PVWA_PASSWORD ReadPassword = Some password
      ∧ password ≠ EmptyString
      ∧ logon (logon_request
                 {| BaseURL := baseURL; Username := username;
                    AuthToken := EmptyString |} password)
        = LogonResponse status body
      ∧ AuthToken client = Trim body dq.
Proof.
  unfold NewPVWAConfig, chosen_password.
  destruct (String.eqb baseURL EmptyString) eqn:Hb; [done|].
  destruct (String.eqb username EmptyString) eqn:Hu; [done|].
  apply String.eqb_neq in Hb, Hu.
  assert (Hlogon : ∀ password,
    password ≠ EmptyString →
    match GetAuthToken logon {| BaseURL := baseURL; Username := username;
                                AuthToken := EmptyString |} password with
    | (Some err, _) => Err ("could not get an authorization token " +:+ err)%string
    | (None, pvwaConfig) => Ok pvwaConfig
    end = Ok client →
    BaseURL client = baseURL ∧ Username client = username
    ∧ ∃ status body,
        logon (logon_request {| BaseURL := baseURL; Username := username;
                                AuthToken := EmptyString |} password)
          = LogonResponse status body
        ∧ AuthToken client = Trim body dq).
  { intros password Hp. unfold GetAuthToken.
    destruct (logon _) as [err|status body]; [done|].
    intros [= <-]. cbn. split; [done|]. split; [done|]. by exists status, body. }
  destruct (String.eqb PVWA_PASSWORD EmptyString) eqn:He.
  - destruct ReadPassword as [bytePassword|err]; [|done].
    destruct (String.eqb (TrimSpace bytePassword) EmptyString) eqn:Ht; [done|].
    apply String.eqb_neq in Ht. intros H.
    destruct (Hlogon _ Ht H) as (H1 & H2 & status & body & H3 & H4).
    split; [done|]. split; [done|]. split; [done|]. split; [done|].
    by exists (TrimSpace bytePassword), status, body.
  - apply String.eqb_neq in He. intros H.
    destruct (Hlogon _ He H) as (H1 & H2 & status & body & H3 & H4).
    split; [done|]. split; [done|]. split; [done|]. split; [done|].
    by exists PVWA_PASSWORD, status, body.
Qed.

(** X11. An empty base URL or user name is refused, whatever the
    password and the server are. *)
Theorem NewPVWAConfig_rejects_empty_arguments (logon : Request → LogonReply)
    (TrimSpace : string → string) (baseURL username PVWA_PASSWORD : string)
    (ReadPassword : Result string) :
  baseURL = EmptyString ∨ username = EmptyString →
  ∃ err, NewPVWAConfig logon TrimSpace baseURL username PVWA_PASSWORD ReadPassword
         = Err err
         ∧ (err = "baseURL cannot be empty"%string
            ∨ err = "username cannot be empty"%string).
Proof.
  intros H. unfold NewPVWAConfig.
  destruct (String.eqb baseURL EmptyString) eqn:Hb; [by eexists; split; [|left]|].
  destruct H as [->| ->]; [done|]. cbn. eexists. split; [done|by right].
Qed.


(** X8 at the server that accepts the logon. *)
Lemma GetAuthToken_token_has_no_enclosing_quotes_witness :
  first_char (AuthToken {| BaseURL := "https://pvwa.example.com";
                           Username := "auditor"; AuthToken := "c2Vzc2lvbg==" |})
    ≠ Some quote
  ∧ last_char (AuthToken {| BaseURL := "https://pvwa.example.com";
                            Username := "auditor"; AuthToken := "c2Vzc2lvbg==" |})
    ≠ Some quote
  ∧ BaseURL {| BaseURL := "https://pvwa.example.com";
               Username := "auditor"; AuthToken := "c2Vzc2lvbg==" |}
    = BaseURL some_client
  ∧ Username {| BaseURL := "https://pvwa.example.com";
                Username := "auditor"; AuthToken := "c2Vzc2lvbg==" |}
    = Username some_client
  ∧ ∃ status body,
      accepting_logon (logon_request some_client "secret") = LogonResponse status body
      ∧ AuthToken {| BaseURL := "https://pvwa.example.com";
                     Username := "auditor"; AuthToken := "c2Vzc2lvbg==" |}
        = Trim body dq.
Proof.
  apply (GetAuthToken_token_has_no_enclosing_quotes accepting_logon some_client
           {| BaseURL := "https://pvwa.example.com"; Username := "auditor";
              AuthToken := "c2Vzc2lvbg==" |} "secret").
  reflexivity.
Defined.

(** X9 at the server that accepts the logon. *)
Lemma GetAuthToken_unquotes_token_witness :
  GetAuthToken accepting_logon some_client "secret"
  = (None, {| BaseURL := BaseURL some_client; Username := Username some_client;
              AuthToken := "c2Vzc2lvbg==" |}).
Proof.
  apply (GetAuthToken_unquotes_token accepting_logon some_client "secret"
           "c2Vzc2lvbg==" 200).
  - reflexivity.
  - discriminate.
  - discriminate.
Defined.

(** X10 with no [PVWA_PASSWORD] and a password typed with blanks around. *)
Lemma NewPVWAConfig_client_witness :
  ("https://pvwa.example.com" : string) ≠ EmptyString
  ∧ ("auditor" : string) ≠ EmptyString
  ∧ BaseURL {| BaseURL := "https://pvwa.example.com"; Username := "auditor";
               AuthToken := "c2Vzc2lvbg==" |}
    = "https://pvwa.example.com"%string
  ∧ Username {| BaseURL := "https://pvwa.example.com"; Username := "auditor";
                AuthToken := "c2Vzc2lvbg==" |}
    = "auditor"%string
  ∧ ∃ password status body,
      chosen_password flag_TrimSpace EmptyString (Ok " secret ") = Some password
      ∧ password ≠ EmptyString
      ∧ accepting_logon
          (logon_request {| BaseURL := "https://pvwa.example.com";
                            Username := "auditor"; AuthToken := EmptyString |}
             password)
        = LogonResponse status body
      ∧ AuthToken {| BaseURL := "https://pvwa.example.com"; Username := "auditor";
                     AuthToken := "c2Vzc2lvbg==" |}
        = Trim body dq.
Proof.
  apply (NewPVWAConfig_client accepting_logon flag_TrimSpace
           "https://pvwa.example.com" "auditor" EmptyString (Ok " secret ")).
  reflexivity.
Defined.

(** X11 at an empty user name. *)
Lemma NewPVWAConfig_rejects_empty_arguments_witness :
  ∃ err, NewPVWAConfig accepting_logon flag_TrimSpace "https://pvwa.example.com"
           EmptyString "secret" (Err "not a terminal")
         = Err err
         ∧ (err = "baseURL cannot be empty"%string
            ∨ err = "username cannot be empty"%string).
Proof.
  apply (NewPVWAConfig_rejects_empty_arguments accepting_logon flag_TrimSpace
           "https://pvwa.example.com" EmptyString "secret" (Err "not a terminal")).
  by right.
Defined.

(** ** Files and streams of [DownloadRecordings] *)

Lemma omap_app_list {A B} (f : A → option B) (l1 l2 : list A) :
  omap f (l1 ++ l2) = omap f l1 ++ omap f l2.
Proof. induction l1 as [|x l1 IH]; cbn; [done|]. destruct (f x); cbn; by rewrite IH. Qed.

Section DownloadFacts.
Variable disk : Disk.
Variable play : Request → PlayReply.
Variable Join : list string → string.
Variable p : pvwaClient.

Lemma copy_loop_effect fuel sid path : ∀ (s : Stream) buffer total st,
  ∃ evs,
    events (copy_loop disk fuel sid path s buffer total st).2 = events st ++ evs
    ∧ Forall copy_event evs
    ∧ deferred (copy_loop disk fuel sid path s buffer total st).2 = deferred st
    ∧ ∀ q, q ≠ path →
        files (copy_loop disk fuel sid path s buffer total st).2 !! q = files st !! q.
Proof.
  induction fuel as [|fuel IH]; intros s buffer total st.
  { exists []. cbn. by rewrite app_nil_r. }
  cbn [copy_loop].
  destruct (Body_Read s buffer) as [[[buffer' n] err] s'].
  destruct (n >? 0).
  - unfold File_Write. destruct (write_err disk path _ _) as [e|].
    + exists [EvWriteFailed path]. cbn. repeat split; try done. by repeat constructor.
    + set (st1 := emit (EvProgress sid _) _).
      assert (H1 : events st1 = events st ++ [EvWrite path (len (take (Z.to_nat n) buffer'));
                      EvProgress sid (Int.i64 (total + n))]).
      { subst st1. cbn. by rewrite <- app_assoc. }
      assert (H2 : deferred st1 = deferred st) by done.
      assert (H3 : ∀ q, q ≠ path → files st1 !! q = files st !! q).
      { intros q Hq. subst st1. cbn. by rewrite lookup_insert_ne. }
      assert (H4 : Forall copy_event [EvWrite path (len (take (Z.to_nat n) buffer'));
                      EvProgress sid (Int.i64 (total + n))]) by by repeat constructor.
      destruct err; cbn [fst snd].
      * destruct (IH s' buffer' (Int.i64 (total + n)) st1) as (evs & He & Hf & Hd & Hq).
        eexists. rewrite He, H1, <- app_assoc, Hd, H2. split; [done|].
        split; [by apply Forall_app|]. split; [done|].
        intros q Hne. by rewrite Hq, H3.
      * eexists. by rewrite H1.
      * eexists. by rewrite H1.
  - destruct err; cbn [fst snd].
    + apply IH.
    + exists []. by rewrite app_nil_r.
    + exists []. by rewrite app_nil_r.
Qed.

Lemma copy_events_not_resources evs :
  Forall copy_event evs →
  opened_files evs = [] ∧ closed_files evs = []
  ∧ opened_bodies evs = [] ∧ closed_bodies evs = [].
Proof.
  induction 1 as [|e evs He _ IH]; [done|].
  destruct e; cbn in *; done.
Qed.

(** What the loop over the recordings adds to the events and to the
    deferred calls. *)
Lemma download_each_resources fuel outputPath : ∀ recordings st,
  ∃ evs ds,
    events (download_each disk play Join p fuel outputPath recordings st).2
      = events st ++ evs
    ∧ deferred (download_each disk play Join p fuel outputPath recordings st).2
      = ds ++ deferred st
    ∧ closed_files evs = [] ∧ closed_bodies evs = []
    ∧ opened_files evs = reverse (deferred_files ds)
    ∧ ((download_each disk play Join p fuel outputPath recordings st).1 = Returned None →
       opened_bodies evs = reverse (deferred_bodies ds)).
Proof.
  induction recordings as [|rec recordings IH]; intros st.
  { exists [], []. cbn. by rewrite app_nil_r. }
  cbn [download_each].
  unfold os_Create. destruct (create_err disk _) as [e|].
  { exists [], []. cbn. by rewrite app_nil_r. }
  cbn [fst snd]. set (path := Join _).
  destruct (play _) as [e|status rawBody].
  { exists [EvOpenFile path], [DeferCloseFile path]. cbn. done. }
  destruct rawBody as [rawBody|]; cycle 1.
  { destruct (negb _); exists [EvOpenFile path], [DeferCloseFile path]; cbn; done. }
  destruct (negb _).
  { exists [EvOpenFile path; EvOpenBody (SessionID rec)], [DeferCloseFile path].
    cbn. by rewrite <- app_assoc. }
  set (st1 := defer (DeferCloseBody _) _).
  assert (E1 : events st1 = events st ++ [EvOpenFile path; EvOpenBody (SessionID rec)]).
  { subst st1. cbn. by rewrite <- app_assoc. }
  assert (D1 : deferred st1
               = [DeferCloseBody (SessionID rec); DeferCloseFile path] ++ deferred st)
    by done.
  destruct (copy_loop_effect fuel (SessionID rec) path rawBody new_buffer 0 st1)
    as (cevs & Hce & Hcf & Hcd & _).
  destruct (copy_events_not_resources cevs Hcf) as (C1 & C2 & C3 & C4).
  destruct (copy_loop disk fuel (SessionID rec) path rawBody new_buffer 0 st1)
    as [[[total|e]|] st2]; cbn [fst snd] in *.
  - destruct (IH st2) as (evs & ds & He & Hd & F1 & F2 & F3 & F4).
    exists ([EvOpenFile path; EvOpenBody (SessionID rec)] ++ cevs ++ evs),
           (ds ++ [DeferCloseBody (SessionID rec); DeferCloseFile path]).
    rewrite He, Hce, E1, Hd, Hcd, D1, <- !app_assoc.
    split; [done|]. split; [done|].
    unfold closed_files, closed_bodies, opened_files, opened_bodies,
      deferred_files, deferred_bodies in *.
    rewrite !omap_app_list, ?C1, ?C2, ?C3, ?C4, ?F1, ?F2, ?F3. cbn.
    rewrite !reverse_app. cbn. repeat split; try done.
    intros Hr. by rewrite (F4 Hr).
  - exists ([EvOpenFile path; EvOpenBody (SessionID rec)] ++ cevs),
           [DeferCloseBody (SessionID rec); DeferCloseFile path].
    rewrite Hce, E1, Hcd, D1, <- !app_assoc.
    split; [done|]. split; [done|].
    unfold closed_files, closed_bodies, opened_files, opened_bodies,
      deferred_files, deferred_bodies in *.
    rewrite !omap_app_list, ?C1, ?C2, ?C3, ?C4. cbn. done.
  - exists ([EvOpenFile path; EvOpenBody (SessionID rec)] ++ cevs),
           [DeferCloseBody (SessionID rec); DeferCloseFile path].
    rewrite Hce, E1, Hcd, D1, <- !app_assoc.
    split; [done|]. split; [done|].
    unfold closed_files, closed_bodies, opened_files, opened_bodies,
      deferred_files, deferred_bodies in *.
    rewrite !omap_app_list, ?C1, ?C2, ?C3, ?C4. cbn. done.
Qed.

End DownloadFacts.

Lemma closed_files_run_deferred ds :
  closed_files (map run_deferred ds) = deferred_files ds.
Proof.
  unfold closed_files, deferred_files.
  induction ds as [|d ds IH]; [done|]. destruct d; cbn; by rewrite IH.
Qed.

Lemma closed_bodies_run_deferred ds :
  closed_bodies (map run_deferred ds) = deferred_bodies ds.
Proof.
  unfold closed_bodies, deferred_bodies.
  induction ds as [|d ds IH]; [done|]. destruct d; cbn; by rewrite IH.
Qed.

Lemma opened_run_deferred ds :
  opened_files (map run_deferred ds) = [] ∧ opened_bodies (map run_deferred ds) = [].
Proof.
  unfold opened_files, opened_bodies.
  induction ds as [|d ds [IH1 IH2]]; [done|]. destruct d; cbn; by rewrite IH1, IH2.
Qed.

(** X12. When [DownloadRecordings] returns, with or without an error,
    no deferred call is left and every file it opened has been closed
    exactly once, the last opened first; when it returns no error the same
    holds of the response streams. *)
Theorem DownloadRecordings_closes_every_file (disk : Disk) (play : Request → PlayReply)
    (Join : list string → string) (p : pvwaClient) (fuel : nat)
    (outputPath : string) (sessions : SessionRecordings) (st : DlState)
    (r : option error) :
  deferred st = [] →
  (DownloadRecordings disk play Join p fuel outputPath sessions st).1 = Returned r →
  ∃ evs,
    events (DownloadRecordings disk play Join p fuel outputPath sessions st).2
      = events st ++ evs
    ∧ deferred (DownloadRecordings disk play Join p fuel outputPath sessions st).2 = []
    ∧ closed_files evs = reverse (opened_files evs)
    ∧ (r = None → closed_bodies evs = reverse (opened_bodies evs)).
Proof.
  intros Hd0 Hr. unfold DownloadRecordings in *.
  destruct (mkdir_err disk outputPath) as [e|].
  { exists []. cbn. by rewrite app_nil_r. }
  destruct (download_each_resources disk play Join p fuel outputPath
              (Recordings sessions) (emit (EvMkdirAll outputPath) st))
    as (evs & ds & He & Hd & F1 & F2 & F3 & F4).
  destruct (download_each disk play Join p fuel outputPath _ _) as [[r'|] st'];
    cbn [fst snd] in *; [|done].
  injection Hr as ->.
  cbn [emit events deferred] in He, Hd. rewrite Hd0, app_nil_r in Hd.
  exists ([EvMkdirAll outputPath] ++ evs ++ map run_deferred ds).
  cbn [return_ events deferred]. rewrite He, Hd, <- !app_assoc.
  split; [done|]. split; [done|].
  destruct (opened_run_deferred ds) as [O1 O2].
  unfold closed_files, closed_bodies, opened_files, opened_bodies in *.
  rewrite !omap_app_list. cbn [omap].
  fold (closed_files (map run_deferred ds)). fold (closed_bodies (map run_deferred ds)).
  rewrite closed_files_run_deferred, closed_bodies_run_deferred.
  rewrite F1, F2, O1, O2, F3, !app_nil_r, !app_nil_l, reverse_involutive.
  split; [done|]. intros ->. by rewrite (F4 eq_refl), reverse_involutive.
Qed.


Section DownloadContents.
Variable disk : Disk.
Variable play : Request → PlayReply.
Variable Join : list string → string.
Variable p : pvwaClient.
Variable fuel : nat.
Variable outputPath : string.

Lemma download_each_clean : ∀ recordings st,
  Forall (downloads_cleanly disk play Join p fuel outputPath) recordings →
  NoDup (avi_path Join outputPath <$> recordings) →
  (download_each disk play Join p fuel outputPath recordings st).1 = Returned None
  ∧ (∀ recording body,
       recording ∈ recordings →
       play (play_request p (SessionID recording)) = PlayResponse 200 (Some body) →
       file_content (download_each disk play Join p fuel outputPath recordings st).2
         (avi_path Join outputPath recording)
       = stream_body body)
  ∧ (∀ q, q ∉ avi_path Join outputPath <$> recordings →
       files (download_each disk play Join p fuel outputPath recordings st).2 !! q
       = files st !! q).
Proof.
  induction recordings as [|rec recordings IH]; intros st Hall Hnd.
  { cbn. split; [done|]. split; [|done]. intros ?? H. by apply elem_of_nil in H. }
  apply Forall_cons in Hall as [(Hcreate & Hdisk & body & Hplay & Hfit & Hend & Hfuel) Hall].
  rewrite fmap_cons in Hnd. apply NoDup_cons in Hnd as [Hfresh Hnd].
  cbn [download_each]. fold (avi_path Join outputPath rec).
  set (path := avi_path Join outputPath rec) in *.
  unfold os_Create. rewrite Hcreate, Hplay. cbn [fst snd negb Z.eqb Pos.eqb].
  set (st1 := defer (DeferCloseBody _) _).
  assert (Hk : ∃ k, fuel = (S (length body) + k)%nat).
  { exists (fuel - S (length body))%nat. lia. }
  destruct Hk as [k Hk].
  destruct (copy_loop_accepting disk (SessionID rec) path body k new_buffer 0 st1)
    as [Hr Hf]; [done|done|apply len_new_buffer|by vm_compute|].
  destruct (copy_loop_effect disk fuel (SessionID rec) path body new_buffer 0 st1)
    as (_ & _ & _ & _ & Hother).
  rewrite <- Hk in Hr, Hf.
  unfold copy_outcome in Hr. rewrite Hend in Hr.
  destruct (copy_loop disk fuel (SessionID rec) path body new_buffer 0 st1) as [r st2].
  cbn [fst snd] in *. subst r.
  destruct (IH st2 Hall Hnd) as (IH1 & IH2 & IH3).
  split; [done|]. split.
  - intros rec' body' Hin Hplay'. apply elem_of_cons in Hin as [->|Hin].
    + rewrite Hplay in Hplay'. injection Hplay' as <-.
      trans (file_content st2 path); [unfold file_content; by rewrite IH3|].
      rewrite Hf. unfold file_content, st1. cbn. by rewrite lookup_insert_eq.
    + by apply IH2.
  - intros q Hq. rewrite fmap_cons in Hq. apply not_elem_of_cons in Hq as [Hne Hq].
    rewrite IH3, Hother by done. unfold st1. cbn. by rewrite lookup_insert_ne.
Qed.

End DownloadContents.

(** X13. When the directory can be made, the recordings are saved to
    different files and every one of them downloads without a failure,
    [DownloadRecordings] returns no error and the file of each recording
    holds exactly the bytes of its stream. *)
Theorem DownloadRecordings_saves_every_body (disk : Disk) (play : Request → PlayReply)
    (Join : list string → string) (p : pvwaClient) (fuel : nat)
    (outputPath : string) (sessions : SessionRecordings) (st : DlState) :
  mkdir_err disk outputPath = None →
  Forall (downloads_cleanly disk play Join p fuel outputPath) (Recordings sessions) →
  NoDup (avi_path Join outputPath <$> Recordings sessions) →
  (DownloadRecordings disk play Join p fuel outputPath sessions st).1 = Returned None
  ∧ ∀ recording body,
      recording ∈ Recordings sessions →
      play (play_request p (SessionID recording)) = PlayResponse 200 (Some body) →
      file_content (DownloadRecordings disk play Join p fuel outputPath sessions st).2
        (avi_path Join outputPath recording)
      = stream_body body.
Proof.
  intros Hmk Hall Hnd. unfold DownloadRecordings. rewrite Hmk.
  destruct (download_each_clean disk play Join p fuel outputPath (Recordings sessions)
              (emit (EvMkdirAll outputPath) st) Hall Hnd) as (H1 & H2 & _).
  destruct (download_each disk play Join p fuel outputPath _ _) as [r st'].
  cbn [fst snd] in *. subst r. split; [done|].
  intros recording body Hin Hplay. by apply H2.
Qed.

Lemma two_recordings_download_cleanly :
  Forall (downloads_cleanly quiet_disk play_ok join_slash some_client 5 "out")
    (Recordings two_recordings).
Proof.
  repeat constructor; try apply quiet_disk_accepts.
  all: exists [([x41; x56], rNil); ([x49], rEOF)]; repeat split;
    try (repeat constructor; by vm_compute); cbn; lia.
Qed.

Lemma two_recordings_distinct_paths :
  NoDup (avi_path join_slash "out" <$> Recordings two_recordings).
Proof.
  change (NoDup ["out/a.avi"; "out/b.avi"]%string).
  apply NoDup_cons. split; [|apply NoDup_singleton].
  intros H%list_elem_of_singleton. discriminate.
Qed.

(** X13 at two recordings that download without a failure. *)
Lemma DownloadRecordings_saves_every_body_witness :
  (DownloadRecordings quiet_disk play_ok join_slash some_client 5 "out"
     two_recordings fresh_state).1 = Returned None
  ∧ ∀ recording body,
      recording ∈ Recordings two_recordings →
      play_ok (play_request some_client (SessionID recording))
        = PlayResponse 200 (Some body) →
      file_content (DownloadRecordings quiet_disk play_ok join_slash some_client 5
                      "out" two_recordings fresh_state).2
        (avi_path join_slash "out" recording)
      = stream_body body.
Proof.
  apply (DownloadRecordings_saves_every_body quiet_disk play_ok join_slash
           some_client 5 "out" two_recordings fresh_state).
  - reflexivity.
  - exact two_recordings_download_cleanly.
  - exact two_recordings_distinct_paths.
Defined.

(** X12 at two recordings that download without a failure. *)
Lemma DownloadRecordings_closes_every_file_witness :
  ∃ evs,
    events (DownloadRecordings quiet_disk play_ok join_slash some_client 5 "out"
              two_recordings fresh_state).2
      = events fresh_state ++ evs
    ∧ deferred (DownloadRecordings quiet_disk play_ok join_slash some_client 5 "out"
                  two_recordings fresh_state).2 = []
    ∧ closed_files evs = reverse (opened_files evs)
    ∧ (@None error = None → closed_bodies evs = reverse (opened_bodies evs)).
Proof.
  apply (DownloadRecordings_closes_every_file quiet_disk play_ok join_slash
           some_client 5 "out" two_recordings fresh_state None).
  - reflexivity.
  - by vm_compute.
Defined.


Section DownloadFrame.
Variable disk : Disk.
Variable play : Request → PlayReply.
Variable Join : list string → string.
Variable p : pvwaClient.
Variable fuel : nat.
Variable outputPath : string.

Lemma download_each_frame : ∀ recordings st q,
  q ∉ avi_path Join outputPath <$> recordings →
  files (download_each disk play Join p fuel outputPath recordings st).2 !! q
  = files st !! q.
Proof.
  induction recordings as [|rec recordings IH]; intros st q Hq; [done|].
  rewrite fmap_cons in Hq. apply not_elem_of_cons in Hq as [Hne Hq].
  cbn [download_each]. fold (avi_path Join outputPath rec).
  set (path := avi_path Join outputPath rec) in *.
  unfold os_Create. destruct (create_err disk path); [done|]. cbn [fst snd].
  assert (Hins : (<[path := []]> (files st) : gmap string (list byte)) !! q = files st !! q)
    by by rewrite lookup_insert_ne.
  destruct (play _) as [e|status rawBody]; [done|].
  destruct rawBody as [rawBody|]; [|by destruct (negb _)].
  destruct (negb _); [done|].
  set (st1 := defer (DeferCloseBody _) _).
  destruct (copy_loop_effect disk fuel (SessionID rec) path rawBody new_buffer 0 st1)
    as (_ & _ & _ & _ & Hother).
  specialize (Hother q Hne).
  destruct (copy_loop disk fuel (SessionID rec) path rawBody new_buffer 0 st1)
    as [[[total|e]|] st2]; cbn [fst snd] in *; try by rewrite Hother.
  by rewrite IH, Hother.
Qed.

Lemma download_each_app : ∀ pre rest st,
  (download_each disk play Join p fuel outputPath pre st).1 = Returned None →
  download_each disk play Join p fuel outputPath (pre ++ rest) st
  = download_each disk play Join p fuel outputPath rest
      (download_each disk play Join p fuel outputPath pre st).2.
Proof.
  induction pre as [|rec pre IH]; intros rest st Hpre; [done|].
  cbn [app download_each] in *.
  destruct (os_Create disk _ st) as [[e|] st0]; [done|].
  destruct (play _) as [e|status rawBody]; [done|].
  destruct (negb _); [done|].
  destruct rawBody as [rawBody|]; [|done].
  destruct (copy_loop _ _ _ _ _ _ _ _) as [[[total|e]|] st2]; try done.
  by apply IH.
Qed.

End DownloadFrame.

(** X14. [DownloadRecordings] leaves every file alone that is not the
    [.avi] file of one of the recordings it is given, however it ends. *)
Theorem DownloadRecordings_touches_only_avi_files (disk : Disk)
    (play : Request → PlayReply) (Join : list string → string) (p : pvwaClient)
    (fuel : nat) (outputPath : string) (sessions : SessionRecordings) (st : DlState)
    (q : string) :
  q ∉ avi_path Join outputPath <$> Recordings sessions →
  files (DownloadRecordings disk play Join p fuel outputPath sessions st).2 !! q
  = files st !! q.
Proof.
  intros Hq. unfold DownloadRecordings.
  destruct (mkdir_err disk outputPath); [done|].
  pose proof (download_each_frame disk play Join p fuel outputPath
                (Recordings sessions) (emit (EvMkdirAll outputPath) st) q Hq) as H.
  by destruct (download_each disk play Join p fuel outputPath _ _) as [[r|] st'].
Qed.

(** X15. The first recording the server does not play with status 200
    ends the download: the error names the status, the file of that
    recording is left behind empty, and no file of a later recording is
    created. *)
Theorem DownloadRecordings_stops_at_refused_play (disk : Disk)
    (play : Request → PlayReply) (Join : list string → string) (p : pvwaClient)
    (fuel : nat) (outputPath : string) (done_ rest : list Recording)
    (recording : Recording) (total : Z) (st : DlState)
    (status : Z) (rawBody : option Stream) :
  mkdir_err disk outputPath = None →
  Forall (downloads_cleanly disk play Join p fuel outputPath) done_ →
  NoDup (avi_path Join outputPath <$> done_) →
  create_err disk (avi_path Join outputPath recording) = None →
  play (play_request p (SessionID recording)) = PlayResponse status rawBody →
  status ≠ 200 →
  (DownloadRecordings disk play Join p fuel outputPath
     {| Recordings := done_ ++ recording :: rest; Total := total |} st).1
  = Returned (Some ("unexpected status code: " +:+ Sprintf_d status)%string)
  ∧ files (DownloadRecordings disk play Join p fuel outputPath
             {| Recordings := done_ ++ recording :: rest; Total := total |} st).2
      !! avi_path Join outputPath recording = Some []
  ∧ ∀ q, q ∉ avi_path Join outputPath <$> (done_ ++ [recording]) →
      files (DownloadRecordings disk play Join p fuel outputPath
               {| Recordings := done_ ++ recording :: rest; Total := total |} st).2 !! q
      = files st !! q.
Proof.
  intros Hmk Hall Hnd Hcreate Hplay Hstatus.
  unfold DownloadRecordings. rewrite Hmk. cbn [Recordings].
  set (st0 := emit (EvMkdirAll outputPath) st).
  destruct (download_each_clean disk play Join p fuel outputPath done_ st0 Hall Hnd)
    as (Hpre & _ & _).
  rewrite (download_each_app disk play Join p fuel outputPath done_ (recording :: rest)
             st0 Hpre).
  pose proof (download_each_frame disk play Join p fuel outputPath done_ st0) as Hframe.
  destruct (download_each disk play Join p fuel outputPath done_ st0) as [r st1].
  cbn [fst snd] in *.
  cbn [download_each]. fold (avi_path Join outputPath recording).
  unfold os_Create. rewrite Hcreate, Hplay. cbn [fst snd].
  assert (Hneg : negb (status =? 200) = true).
  { apply negb_true_iff, Z.eqb_neq, Hstatus. }
  rewrite Hneg. cbn [fst snd return_ files].
  split; [done|]. split.
  - destruct rawBody; cbn; by rewrite lookup_insert_eq.
  - intros q Hq. rewrite fmap_app in Hq. apply not_elem_of_app in Hq as [Hq1 Hq2].
    cbn in Hq2. apply not_elem_of_cons in Hq2 as [Hne _].
    destruct rawBody; cbn; rewrite lookup_insert_ne by done; by apply Hframe.
Qed.

(** X15 at a server that answers 500. *)
Lemma DownloadRecordings_stops_at_refused_play_witness :
  (DownloadRecordings quiet_disk play_500 join_slash some_client 5 "out"
     {| Recordings := [] ++ blank_recording "a" :: [blank_recording "b"];
        Total := 2 |} fresh_state).1
  = Returned (Some ("unexpected status code: " +:+ Sprintf_d 500)%string)
  ∧ files (DownloadRecordings quiet_disk play_500 join_slash some_client 5 "out"
             {| Recordings := [] ++ blank_recording "a" :: [blank_recording "b"];
                Total := 2 |} fresh_state).2
      !! avi_path join_slash "out" (blank_recording "a") = Some []
  ∧ ∀ q, q ∉ avi_path join_slash "out" <$> ([] ++ [blank_recording "a"]) →
      files (DownloadRecordings quiet_disk play_500 join_slash some_client 5 "out"
               {| Recordings := [] ++ blank_recording "a" :: [blank_recording "b"];
                  Total := 2 |} fresh_state).2 !! q
      = files fresh_state !! q.
Proof.
  apply (DownloadRecordings_stops_at_refused_play quiet_disk play_500 join_slash
           some_client 5 "out" [] [blank_recording "b"] (blank_recording "a") 2
           fresh_state 500 (Some [([x6f; x6f; x70; x73], rEOF)])).
  - reflexivity.
  - constructor.
  - constructor.
  - reflexivity.
  - reflexivity.
  - discriminate.
Defined.

(** X14 at a file of a recording that is not in the list. *)
Lemma DownloadRecordings_touches_only_avi_files_witness :
  files (DownloadRecordings quiet_disk play_ok join_slash some_client 5 "out"
           two_recordings fresh_state).2 !! "out/c.avi"%string
  = files fresh_state !! "out/c.avi"%string.
Proof.
  apply (DownloadRecordings_touches_only_avi_files quiet_disk play_ok join_slash
           some_client 5 "out" two_recordings fresh_state "out/c.avi").
  change (("out/c.avi":string) ∉ ["out/a.avi"; "out/b.avi"]%string).
  intros H. apply elem_of_cons in H as [H|H]; [discriminate|].
  apply list_elem_of_singleton in H. discriminate.
Defined.


(** ** [SaveToJSON] *)

Lemma foldl_insert_union_bytes (m : gmap string (list byte))
    (entries : list (string * list byte)) :
  foldl (λ m kv, <[kv.1 := kv.2]> m) m entries = list_to_map (reverse entries) ∪ m.
Proof.
  revert m. induction entries as [|[k v] entries IH]; intros m; simpl.
  - by rewrite (left_id_L ∅ (∪)).
  - rewrite IH, reverse_cons, list_to_map_app. simpl.
    rewrite <- (assoc_L (∪)). f_equal.
    by rewrite insert_empty, <- insert_union_singleton_l.
Qed.

Section ExportFacts.
Variable disk : Disk.
Variable MarshalIndent : Recording → Result (list byte).
Variable Join : list string → string.
Variable dirname : string.

Lemma SaveToJSON_each_success : ∀ recordings fs,
  (SaveToJSON_each disk MarshalIndent Join dirname recordings fs).1 = None
  ↔ Forall (exports_cleanly disk MarshalIndent Join dirname) recordings.
Proof.
  induction recordings as [|session recordings IH]; intros fs; cbn [SaveToJSON_each].
  { split; [by constructor|done]. }
  rewrite Forall_cons. unfold exports_cleanly at 1, os_WriteFile.
  fold (json_path Join dirname session).
  destruct (MarshalIndent session) as [jsonData|err].
  - destruct (create_err disk _) as [e|].
    { split; [done|]. by intros [(j & _ & ? & _) _]. }
    destruct (write_err disk _ 0 (len jsonData)) as [e|] eqn:Hw.
    { split; [done|]. intros [(j & [= <-] & _ & Hw') _]. congruence. }
    cbn [fst snd]. rewrite IH. split; [|by intros [_ ?]].
    intros H. split; [|done]. by exists jsonData.
  - split; [done|]. by intros [(j & ? & _) _].
Qed.

Lemma SaveToJSON_each_files : ∀ recordings fs,
  (SaveToJSON_each disk MarshalIndent Join dirname recordings fs).1 = None →
  (SaveToJSON_each disk MarshalIndent Join dirname recordings fs).2
  = foldl (λ m kv, <[kv.1 := kv.2]> m) fs (exported MarshalIndent Join dirname recordings).
Proof.
  induction recordings as [|session recordings IH]; intros fs Hok; [done|].
  unfold exported in *. cbn [SaveToJSON_each omap list_omap] in *.
  unfold os_WriteFile in *. fold (json_path Join dirname session) in *.
  destruct (MarshalIndent session) as [jsonData|err]; [|done].
  destruct (create_err disk _) as [e|]; [done|].
  destruct (write_err disk _ 0 (len jsonData)) as [e|]; [done|].
  cbn [fst snd foldl] in *. by apply IH.
Qed.

Lemma SaveToJSON_each_frame : ∀ recordings fs q,
  q ∉ json_path Join dirname <$> recordings →
  (SaveToJSON_each disk MarshalIndent Join dirname recordings fs).2 !! q = fs !! q.
Proof.
  induction recordings as [|session recordings IH]; intros fs q Hq; [done|].
  rewrite fmap_cons in Hq. apply not_elem_of_cons in Hq as [Hne Hq].
  cbn [SaveToJSON_each]. unfold os_WriteFile.
  fold (json_path Join dirname session).
  destruct (MarshalIndent session) as [jsonData|err]; [|done].
  destruct (create_err disk _) as [e|]; [done|].
  destruct (write_err disk _ 0 (len jsonData)) as [e|]; cbn [fst snd].
  - by rewrite lookup_insert_ne.
  - by rewrite IH, lookup_insert_ne.
Qed.

Lemma SaveToJSON_each_content : ∀ recordings fs session jsonData,
  (SaveToJSON_each disk MarshalIndent Join dirname recordings fs).1 = None →
  NoDup (json_path Join dirname <$> recordings) →
  session ∈ recordings →
  MarshalIndent session = Ok jsonData →
  (SaveToJSON_each disk MarshalIndent Join dirname recordings fs).2
    !! json_path Join dirname session = Some jsonData.
Proof.
  induction recordings as [|s recordings IH]; intros fs session jsonData Hok Hnd Hin Hm.
  { by apply elem_of_nil in Hin. }
  rewrite fmap_cons in Hnd. apply NoDup_cons in Hnd as [Hfresh Hnd].
  cbn [SaveToJSON_each] in *. unfold os_WriteFile in *.
  fold (json_path Join dirname s) in *.
  destruct (MarshalIndent s) as [json|err] eqn:Hs; [|done].
  destruct (create_err disk _) as [e|]; [done|].
  destruct (write_err disk _ 0 (len json)) as [e|]; [done|].
  cbn [fst snd] in *.
  apply elem_of_cons in Hin as [->|Hin].
  - rewrite SaveToJSON_each_frame by done. rewrite lookup_insert_eq. congruence.
  - by apply IH.
Qed.

End ExportFacts.

(** X16. [SaveToJSON] returns no error exactly when the directory can be
    made and every recording marshals and its file can be created and
    written. *)
Theorem SaveToJSON_succeeds_iff (disk : Disk)
    (MarshalIndent : Recording → Result (list byte)) (Join : list string → string)
    (s : SessionRecordings) (dirname : string) (fs : gmap string (list byte)) :
  (SaveToJSON disk MarshalIndent Join s dirname fs).1 = None
  ↔ mkdir_err disk dirname = None
    ∧ Forall (exports_cleanly disk MarshalIndent Join dirname) (Recordings s).
Proof.
  unfold SaveToJSON. destruct (mkdir_err disk dirname) as [e|].
  - split; [done|]. by intros [? _].
  - rewrite SaveToJSON_each_success. split; [done|by intros [_ ?]].
Qed.

(** X17. After an export without error, when the recordings go to
    different files, the file of every recording holds its JSON. *)
Theorem SaveToJSON_writes_every_recording (disk : Disk)
    (MarshalIndent : Recording → Result (list byte)) (Join : list string → string)
    (s : SessionRecordings) (dirname : string) (fs : gmap string (list byte))
    (session : Recording) (jsonData : list byte) :
  (SaveToJSON disk MarshalIndent Join s dirname fs).1 = None →
  NoDup (json_path Join dirname <$> Recordings s) →
  session ∈ Recordings s →
  MarshalIndent session = Ok jsonData →
  (SaveToJSON disk MarshalIndent Join s dirname fs).2
    !! json_path Join dirname session = Some jsonData.
Proof.
  unfold SaveToJSON. destruct (mkdir_err disk dirname) as [e|]; [done|].
  apply SaveToJSON_each_content.
Qed.

(** X18. [SaveToJSON] leaves every file alone that is not the [.json]
    file of one of its recordings, however it ends. *)
Theorem SaveToJSON_touches_only_json_files (disk : Disk)
    (MarshalIndent : Recording → Result (list byte)) (Join : list string → string)
    (s : SessionRecordings) (dirname : string) (fs : gmap string (list byte))
    (q : string) :
  q ∉ json_path Join dirname <$> Recordings s →
  (SaveToJSON disk MarshalIndent Join s dirname fs).2 !! q = fs !! q.
Proof.
  unfold SaveToJSON. destruct (mkdir_err disk dirname) as [e|]; [done|].
  apply SaveToJSON_each_frame.
Qed.

(** X19. Exporting the same recordings again after an export without
    error returns no error and leaves every file as it is. *)
Theorem SaveToJSON_idempotent (disk : Disk)
    (MarshalIndent : Recording → Result (list byte)) (Join : list string → string)
    (s : SessionRecordings) (dirname : string) (fs : gmap string (list byte)) :
  (SaveToJSON disk MarshalIndent Join s dirname fs).1 = None →
  SaveToJSON disk MarshalIndent Join s dirname
    (SaveToJSON disk MarshalIndent Join s dirname fs).2
  = (None, (SaveToJSON disk MarshalIndent Join s dirname fs).2).
Proof.
  unfold SaveToJSON. destruct (mkdir_err disk dirname) as [e|]; [done|].
  intros Hok.
  assert (Hok2 : ∀ fs2, (SaveToJSON_each disk MarshalIndent Join dirname
                           (Recordings s) fs2).1 = None).
  { intros fs2. apply SaveToJSON_each_success.
    by apply (SaveToJSON_each_success disk MarshalIndent Join dirname _ fs). }
  rewrite (surjective_pairing (SaveToJSON_each _ _ _ _ _ _)). f_equal; [apply Hok2|].
  rewrite !SaveToJSON_each_files by apply Hok2.
  rewrite !foldl_insert_union_bytes.
  by rewrite (assoc_L (∪)), (idemp_L (∪)).
Qed.


Lemma two_recordings_export : 
  (SaveToJSON quiet_disk marshal_id join_slash two_recordings "out" ∅).1 = None.
Proof. reflexivity. Qed.

Lemma two_recordings_distinct_json :
  NoDup (json_path join_slash "out" <$> Recordings two_recordings).
Proof.
  change (NoDup ["out/a.json"; "out/b.json"]%string).
  apply NoDup_cons. split; [|apply NoDup_singleton].
  intros H%list_elem_of_singleton. discriminate.
Qed.

(** X17 at two recordings. *)
Lemma SaveToJSON_writes_every_recording_witness :
  (SaveToJSON quiet_disk marshal_id join_slash two_recordings "out" ∅).2
    !! json_path join_slash "out" (blank_recording "b")
  = Some (list_byte_of_string "b").
Proof.
  apply (SaveToJSON_writes_every_recording quiet_disk marshal_id join_slash
           two_recordings "out" ∅ (blank_recording "b") (list_byte_of_string "b")).
  - exact two_recordings_export.
  - exact two_recordings_distinct_json.
  - right. left.
  - reflexivity.
Defined.

(** X18 at the video file of a recording. *)
Lemma SaveToJSON_touches_only_json_files_witness :
  (SaveToJSON quiet_disk marshal_id join_slash two_recordings "out"
     {[ "out/a.avi"%string := [x41] ]}).2 !! "out/a.avi"%string
  = ({[ "out/a.avi"%string := [x41] ]} : gmap string (list byte)) !! "out/a.avi"%string.
Proof.
  apply (SaveToJSON_touches_only_json_files quiet_disk marshal_id join_slash
           two_recordings "out" {[ "out/a.avi"%string := [x41] ]} "out/a.avi").
  change (("out/a.avi":string) ∉ ["out/a.json"; "out/b.json"]%string).
  intros H. apply elem_of_cons in H as [H|H]; [discriminate|].
  apply list_elem_of_singleton in H. discriminate.
Defined.

(** X19 at two recordings. *)
Lemma SaveToJSON_idempotent_witness :
  SaveToJSON quiet_disk marshal_id join_slash two_recordings "out"
    (SaveToJSON quiet_disk marshal_id join_slash two_recordings "out" ∅).2
  = (None, (SaveToJSON quiet_disk marshal_id join_slash two_recordings "out" ∅).2).
Proof.
  apply (SaveToJSON_idempotent quiet_disk marshal_id join_slash two_recordings
           "out" ∅).
  exact two_recordings_export.
Defined.


(** ** [parseMonths] *)

Section FlagsFacts.
Variable Contains : string → string → bool.
Variable Split : string → string → list string.
Variable TrimSpace : string → string.
Variable Atoi : string → Result Z.

Lemma parseMonths_range_bounded fuel : ∀ i end_ months,
  Forall valid_month months →
  13 - i < Z.of_nat fuel → (0 < fuel)%nat →
  ∃ r, parseMonths_range fuel i end_ months = Returned r
       ∧ ∀ ms, r = Proceed ms → Forall valid_month ms.
Proof.
  induction fuel as [|fuel IH]; intros i end_ months Hm Hfuel Hpos; [lia|].
  cbn [parseMonths_range].
  destruct (i <=? end_); [|by eexists; split; [done|]; intros ms [= <-]].
  destruct (_ || _) eqn:Hrange; [by eexists|].
  apply orb_false_iff in Hrange as [H1%Z.ltb_ge H12].
  rewrite Z.gtb_ltb in H12. apply Z.ltb_ge in H12.
  rewrite i64_small by (unfold Int.in_i64, Int.MinInt64, Int.MaxInt64, Int.two63; lia).
  apply IH.
  - apply Forall_app. split; [done|]. by repeat constructor.
  - lia.
  - lia.
Qed.

Lemma parseMonths_list_valid : ∀ items months ms,
  Forall valid_month months →
  parseMonths_list TrimSpace Atoi items months = Proceed ms →
  Forall valid_month ms.
Proof.
  induction items as [|m items IH]; intros months ms Hm; cbn [parseMonths_list].
  { by intros [= <-]. }
  destruct (Atoi _) as [month|err]; [|done].
  destruct (_ || _) eqn:Hrange; [done|].
  apply orb_false_iff in Hrange as [H1%Z.ltb_ge H12].
  rewrite Z.gtb_ltb in H12. apply Z.ltb_ge in H12.
  apply IH. apply Forall_app. split; [done|]. by repeat constructor.
Qed.

End FlagsFacts.

(** X20. On a fuel of 13 or more [parseMonths] always comes to an end,
    and the months it returns are all between 1 and 12, whatever the flag
    and whatever the library functions answer. *)
Theorem parseMonths_returns_valid_months (Contains : string → string → bool)
    (Split : string → string → list string) (TrimSpace : string → string)
    (Atoi : string → Result Z) (fuel : nat) (monthsFlag : string) :
  (13 <= fuel)%nat →
  ∃ r, parseMonths Contains Split TrimSpace Atoi fuel monthsFlag = Returned r
       ∧ ∀ months, r = Proceed months → Forall valid_month months.
Proof.
  intros Hfuel. unfold parseMonths.
  destruct (Contains monthsFlag "-").
  - destruct (Split monthsFlag "-") as [|part0 [|part1 [|part2 parts]]];
      try by eexists.
    destruct (Atoi part0) as [start|err]; [|by eexists].
    destruct (Atoi part1) as [end_|err]; [|by eexists].
    destruct (Z.le_gt_cases 1 start) as [Hs|Hs].
    + apply parseMonths_range_bounded; [constructor|lia|lia].
    + destruct fuel as [|fuel]; [lia|]. cbn [parseMonths_range].
      destruct (start <=? end_).
      * assert ((start <? 1) = true) as -> by by apply Z.ltb_lt. by eexists.
      * eexists. split; [done|]. intros ms [= <-]. constructor.
  - eexists. split; [done|]. intros months [= H].
    apply (parseMonths_list_valid TrimSpace Atoi (Split monthsFlag ",") [] months);
      [constructor|done].
Qed.

Section RangeFacts.

Lemma parseMonths_range_seqZ fuel : ∀ i end_ months,
  1 <= i → end_ <= 12 →
  end_ - i + 1 < Z.of_nat fuel → (0 < fuel)%nat →
  parseMonths_range fuel i end_ months
  = Returned (Proceed (months ++ seqZ i (end_ - i + 1))).
Proof.
  induction fuel as [|fuel IH]; intros i end_ months H1 H12 Hfuel Hpos; [lia|].
  cbn [parseMonths_range].
  destruct (i <=? end_) eqn:Hle.
  - apply Z.leb_le in Hle.
    assert (((i <? 1) || (i >? 12)) = false) as ->.
    { apply orb_false_iff. split; [by apply Z.ltb_ge|].
      rewrite Z.gtb_ltb. apply Z.ltb_ge. lia. }
    rewrite i64_small by (unfold Int.in_i64, Int.MinInt64, Int.MaxInt64, Int.two63; lia).
    rewrite IH by lia.
    rewrite (seqZ_cons i (end_ - i + 1)) by lia.
    replace (Z.succ i) with (i + 1) by lia.
    replace (Z.pred (end_ - i + 1)) with (end_ - (i + 1) + 1) by lia.
    by rewrite <- app_assoc.
  - apply Z.leb_gt in Hle. rewrite seqZ_nil by lia. by rewrite app_nil_r.
Qed.

End RangeFacts.

(** X21. A flag of two numbers with a dash between them gives the
    months from the first to the second, both included, when the first is
    at least 1 and the second at most 12; when the first is above the
    second this is the empty list and no error. *)
Theorem parseMonths_range_format (Contains : string → string → bool)
    (Split : string → string → list string) (TrimSpace : string → string)
    (Atoi : string → Result Z) (fuel : nat) (monthsFlag part0 part1 : string)
    (start end_ : Z) :
  Contains monthsFlag "-" = true →
  Split monthsFlag "-" = [part0; part1] →
  Atoi part0 = Ok start → Atoi part1 = Ok end_ →
  1 <= start → end_ <= 12 → (13 <= fuel)%nat →
  parseMonths Contains Split TrimSpace Atoi fuel monthsFlag
  = Returned (Proceed (seqZ start (end_ - start + 1))).
Proof.
  intros Hc Hs H0 H1 Hstart Hend Hfuel. unfold parseMonths.
  rewrite Hc, Hs, H0, H1. rewrite parseMonths_range_seqZ by lia. done.
Qed.

(** X22. A range that is not empty and starts below 1 or ends above 12
    kills the process with the message that months must be between 1 and
    12. *)
Theorem parseMonths_range_out_of_bounds (Contains : string → string → bool)
    (Split : string → string → list string) (TrimSpace : string → string)
    (Atoi : string → Result Z) (fuel : nat) (monthsFlag part0 part1 : string)
    (start end_ : Z) :
  Contains monthsFlag "-" = true →
  Split monthsFlag "-" = [part0; part1] →
  Atoi part0 = Ok start → Atoi part1 = Ok end_ →
  start <= end_ → start < 1 ∨ 12 < end_ → (13 <= fuel)%nat →
  parseMonths Contains Split TrimSpace Atoi fuel monthsFlag
  = Returned (LogFatal "months must be between 1 and 12").
Proof.
  intros Hc Hs H0 H1 Hle Hout Hfuel. unfold parseMonths.
  rewrite Hc, Hs, H0, H1. clear Hc Hs H0 H1.
  destruct (Z.lt_ge_cases start 1) as [Hlow|Hlow].
  { destruct fuel as [|fuel]; [lia|]. cbn [parseMonths_range].
    assert ((start <=? end_) = true) as -> by by apply Z.leb_le.
    by assert ((start <? 1) = true) as -> by by apply Z.ltb_lt. }
  assert (H12 : 12 < end_) by lia. clear Hout.
  generalize (@nil Z) as months.
  assert (Hf : 13 - start < Z.of_nat fuel) by lia.
  assert (Hpos : (0 < fuel)%nat) by lia. clear Hfuel.
  revert start Hle Hlow Hf Hpos.
  induction fuel as [|fuel IH]; intros start Hle Hlow Hf Hpos months; [lia|].
  cbn [parseMonths_range].
  assert ((start <=? end_) = true) as -> by by apply Z.leb_le.
  destruct (_ || _) eqn:Hrange; [done|].
  apply orb_false_iff in Hrange as [_ Hr]. rewrite Z.gtb_ltb in Hr.
  apply Z.ltb_ge in Hr.
  rewrite i64_small by (unfold Int.in_i64, Int.MinInt64, Int.MaxInt64, Int.two63; lia).
  apply IH; lia.
Qed.

(** X23. A flag without a dash is a list separated by commas: when every
    item, blanks trimmed, is a number between 1 and 12, the result is these
    numbers in the order of the flag, repetitions kept. *)
Theorem parseMonths_list_format (Contains : string → string → bool)
    (Split : string → string → list string) (TrimSpace : string → string)
    (Atoi : string → Result Z) (fuel : nat) (monthsFlag : string) (months : list Z) :
  Contains monthsFlag "-" = false →
  Forall2 (λ item month, Atoi (TrimSpace item) = Ok month ∧ valid_month month)
    (Split monthsFlag ",") months →
  parseMonths Contains Split TrimSpace Atoi fuel monthsFlag
  = Returned (Proceed months).
Proof.
  intros Hc Hitems. unfold parseMonths. rewrite Hc. f_equal.
  rewrite <- (app_nil_l months). generalize (@nil Z) as acc.
  induction Hitems as [|item month items months [Hparse [H1 H12]] _ IH]; intros acc.
  { by rewrite app_nil_r. }
  cbn [parseMonths_list]. rewrite Hparse.
  assert (((month <? 1) || (month >? 12)) = false) as ->.
  { apply orb_false_iff. split; [by apply Z.ltb_ge|].
    rewrite Z.gtb_ltb. by apply Z.ltb_ge. }
  rewrite IH, <- app_assoc. done.
Qed.


(** X20 at the flag 3-5. *)
Lemma parseMonths_returns_valid_months_witness :
  ∃ r, parseMonths flag_Contains flag_Split flag_TrimSpace flag_Atoi 13 "3-5"
       = Returned r
       ∧ ∀ months, r = Proceed months → Forall valid_month months.
Proof.
  apply (parseMonths_returns_valid_months flag_Contains flag_Split flag_TrimSpace
           flag_Atoi 13 "3-5").
  lia.
Defined.

(** X21 at the flag 3-5. *)
Lemma parseMonths_range_format_witness :
  parseMonths flag_Contains flag_Split flag_TrimSpace flag_Atoi 13 "3-5"
  = Returned (Proceed (seqZ 3 (5 - 3 + 1))).
Proof.
  apply (parseMonths_range_format flag_Contains flag_Split flag_TrimSpace
           flag_Atoi 13 "3-5" "3" "5" 3 5); try reflexivity; lia.
Defined.

(** X22 at the flag 11-14. *)
Lemma parseMonths_range_out_of_bounds_witness :
  parseMonths flag_Contains flag_Split flag_TrimSpace flag_Atoi 13 "11-14"
  = Returned (LogFatal "months must be between 1 and 12").
Proof.
  apply (parseMonths_range_out_of_bounds flag_Contains flag_Split flag_TrimSpace
           flag_Atoi 13 "11-14" "11" "14" 11 14); try reflexivity; lia.
Defined.

(** X23 at the flag 5, 6,7. *)
Lemma parseMonths_list_format_witness :
  parseMonths flag_Contains flag_Split flag_TrimSpace flag_Atoi 0 "5, 6,7"
  = Returned (Proceed [5; 6; 7]).
Proof.
  apply (parseMonths_list_format flag_Contains flag_Split flag_TrimSpace
           flag_Atoi 0 "5, 6,7" [5; 6; 7]).
  - reflexivity.
  - change (flag_Split "5, 6,7" ",") with ["5"; " 6"; "7"]%string.
    repeat constructor; unfold valid_month; lia.
Defined.

(** ** The months the driver processes *)

Section DriverFacts.
Context {S : Type}.
Variable get : Z → S → Result SessionRecordings * S.
Variable save download : string → SessionRecordings → S → option error * S.
Variable Join : list string → string.

Lemma main_months_log : ∀ months st log,
  (main_months get save download Join months st log).1.2
  = log ++ (main_months get save download Join months st []).1.2
  ∧ (main_months get save download Join months st log).1.1
    = (main_months get save download Join months st []).1.1
  ∧ (main_months get save download Join months st log).2
    = (main_months get save download Join months st []).2.
Proof.
  induction months as [|m months IH]; intros st log; cbn [main_months].
  { cbn. by rewrite app_nil_r. }
  destruct (get m st) as [[sessions|err] st1].
  - destruct (save _ sessions st1) as [e1 st2].
    destruct (download _ sessions st2) as [e2 st3].
    destruct (IH st3 (((log ++ [CallGetRecordingsByMonth m]) ++ [CallSaveToJSON
      (Join ["."; "downloaded_recordings/"; Sprintf_d m +:+ "/"]%string)])
      ++ [CallDownloadRecordings
      (Join ["."; "downloaded_recordings/"; Sprintf_d m +:+ "/"]%string)]))
      as (H1 & H2 & H3).
    destruct (IH st3 ((([] ++ [CallGetRecordingsByMonth m]) ++ [CallSaveToJSON
      (Join ["."; "downloaded_recordings/"; Sprintf_d m +:+ "/"]%string)])
      ++ [CallDownloadRecordings
      (Join ["."; "downloaded_recordings/"; Sprintf_d m +:+ "/"]%string)]))
      as (G1 & G2 & G3).
    rewrite H1, H2, H3, G1, G2, G3. by rewrite <- !app_assoc.
  - cbn. by rewrite <- !app_assoc.
Qed.

Lemma main_months_all_listed : ∀ months st,
  (∀ m st, m ∈ months → ∃ sessions st', get m st = (Ok sessions, st')) →
  (main_months get save download Join months st []).1
  = (0, months ≫= month_calls Join).
Proof.
  induction months as [|m months IH]; intros st Hget; [done|].
  cbn [main_months]. destruct (Hget m st) as (sessions & st1 & ->); [by left|].
  destruct (save _ sessions st1) as [e1 st2].
  destruct (download _ sessions st2) as [e2 st3].
  destruct (main_months_log months st3 (month_calls Join m)) as (H1 & H2 & _).
  unfold month_calls in H1, H2.
  assert (Hget' : ∀ m' st', m' ∈ months → ∃ sessions st'', get m' st' = (Ok sessions, st''))
    by (intros; apply Hget; by right).
  specialize (IH st3 Hget').
  cbn [app].
  match goal with |- ?x = _ => rewrite (surjective_pairing x) end.
  rewrite H1, H2, IH. reflexivity.
Qed.

Lemma main_months_app : ∀ done_ rest st,
  (∀ m st, m ∈ done_ → ∃ sessions st', get m st = (Ok sessions, st')) →
  ∃ st', (main_months get save download Join (done_ ++ rest) st []).1
         = ((main_months get save download Join rest st' []).1.1,
            (done_ ≫= month_calls Join)
            ++ (main_months get save download Join rest st' []).1.2).
Proof.
  induction done_ as [|m done_ IH]; intros rest st Hget.
  { exists st. cbn. by rewrite <- surjective_pairing. }
  cbn [app main_months]. destruct (Hget m st) as (sessions & st1 & ->); [by left|].
  destruct (save _ sessions st1) as [e1 st2].
  destruct (download _ sessions st2) as [e2 st3].
  destruct (main_months_log (done_ ++ rest) st3 (month_calls Join m)) as (H1 & H2 & _).
  unfold month_calls in H1, H2.
  destruct (IH rest st3) as [st' Hst']; [intros; apply Hget; by right|].
  exists st'.
  cbn [app].
  match goal with |- ?x = _ => rewrite (surjective_pairing x) end.
  rewrite H1, H2, Hst'. reflexivity.
Qed.

End DriverFacts.

(** X24. When every listing succeeds the driver lists, exports and
    downloads every month in the order given, one after the other, and
    ends with status 0, whatever the export and the download return. *)
Theorem main_processes_every_month {S : Type}
    (get : Z → S → Result SessionRecordings * S)
    (save download : string → SessionRecordings → S → option error * S)
    (Join : list string → string) (months : list Z) (st : S) :
  (∀ m st, m ∈ months → ∃ sessions st', get m st = (Ok sessions, st')) →
  (main get save download Join months None st).1
  = (0, months ≫= month_calls Join).
Proof. intros Hget. unfold main. by apply main_months_all_listed. Qed.

(** X25. The first month whose listing fails ends the run with status 1:
    the months before it are processed in full, its export and download
    are not called, and no later month is looked at. *)
Theorem main_stops_at_failed_listing {S : Type}
    (get : Z → S → Result SessionRecordings * S)
    (save download : string → SessionRecordings → S → option error * S)
    (Join : list string → string) (done_ rest : list Z) (m : Z) (st : S) :
  (∀ m st, m ∈ done_ → ∃ sessions st', get m st = (Ok sessions, st')) →
  (∀ st, ∃ err st', get m st = (Err err, st')) →
  ∃ err,
    (main get save download Join (done_ ++ m :: rest) None st).1
    = (1, (done_ ≫= month_calls Join)
          ++ [CallGetRecordingsByMonth m;
              Fatal ("error getting recordings for month: " +:+ Sprintf_d m
                     +:+ newline +:+ err)%string]).
Proof.
  intros Hdone Hfail. unfold main.
  destruct (main_months_app get save download Join done_ (m :: rest) st Hdone)
    as [st' Hst'].
  rewrite Hst'. cbn [main_months].
  destruct (Hfail st') as (err & st'' & ->). exists err. done.
Qed.

(** X24 at two months whose exports and downloads all fail. *)
Lemma main_processes_every_month_witness :
  (main listing_ok export_fails download_fails join_slash [5; 6] None tt).1
  = (0, [5; 6] ≫= month_calls join_slash).
Proof.
  apply (main_processes_every_month listing_ok export_fails download_fails
           join_slash [5; 6] tt).
  intros m st _. by exists one_recording, st.
Defined.

(** X25 at a listing that fails in June, with July still to come. *)
Lemma main_stops_at_failed_listing_witness :
  ∃ err,
    (main listing_fails_in_june export_fails download_fails join_slash
       ([5] ++ 6 :: [7]) None tt).1
    = (1, ([5] ≫= month_calls join_slash)
          ++ [CallGetRecordingsByMonth 6;
              Fatal ("error getting recordings for month: " +:+ Sprintf_d 6
                     +:+ newline +:+ err)%string]).
Proof.
  apply (main_stops_at_failed_listing listing_fails_in_june export_fails
           download_fails join_slash [5] [7] 6 tt).
  - intros m st Hm. apply list_elem_of_singleton in Hm as ->.
    by exists one_recording, st.
  - intros st. by eexists _, st.
Defined.

